(** * React-Hexagon: the physics and collision core

    A shallow embedding of [src/utils/physics.ts], [src/utils/collision.ts]
    and the ball updates of [src/components/HexagonBounce.tsx], with the
    properties the specification states about them and further properties
    read off the code.

    Numbers.  A TypeScript [number] is modelled as a real number ([R]): the
    specification speaks about Euclidean geometry, and every statement below is
    about the exact arithmetic the code writes down, not about rounding.  The
    one non-real value the code manipulates on purpose, [Infinity] (the initial
    [minDistance] of the edge scan), is kept explicit in [Num].  Comparisons
    ([<], [<=], [>], [===]) are the decidable comparisons of [R].

    Effects.  The code is pure except for [Math.random] in
    [constrainBallInsideHexagon]; the two draws are passed in as arguments.
    The in-place update of [wallNormal] in [handleWallCollision] is written as
    the value the variable holds after the [if]. *)

From Stdlib Require Import Reals Lra Lia List Bool Psatz.
Import ListNotations.
Open Scope R_scope.

(** ** physics.ts: data *)

Record Vector2D : Type := mkVector2D { x : R; y : R }.

Record Ball : Type := mkBall {
  position : Vector2D;
  velocity : Vector2D;
  radius : R
}.

Module PHYSICS_CONSTANTS.
Definition GRAVITY : R := 500.
Definition FRICTION : R := 98 / 100.
Definition BOUNCE_DAMPING : R := 85 / 100.
Definition MIN_VELOCITY : R := 1 / 10.
End PHYSICS_CONSTANTS.

(** ** physics.ts: class Vector *)

Module Vector.

Definition create (a b : R) : Vector2D := mkVector2D a b.

Definition add (a b : Vector2D) : Vector2D :=
  mkVector2D (x a + x b) (y a + y b).

Definition subtract (a b : Vector2D) : Vector2D :=
  mkVector2D (x a - x b) (y a - y b).

Definition multiply (vector : Vector2D) (scalar : R) : Vector2D :=
  mkVector2D (x vector * scalar) (y vector * scalar).

Definition dot (a b : Vector2D) : R := x a * x b + y a * y b.

Definition magnitude (vector : Vector2D) : R :=
  sqrt (x vector * x vector + y vector * y vector).

Definition normalize (vector : Vector2D) : Vector2D :=
  let mag := magnitude vector in
  if Req_dec_T mag 0 then mkVector2D 0 0
  else mkVector2D (x vector / mag) (y vector / mag).

Definition rotate (vector : Vector2D) (angle : R) : Vector2D :=
  let c := cos angle in
  let s := sin angle in
  mkVector2D (x vector * c - y vector * s) (x vector * s + y vector * c).

Definition reflect (incident normal : Vector2D) : Vector2D :=
  let normalizedNormal := normalize normal in
  let d := dot incident normalizedNormal in
  subtract incident (multiply normalizedNormal (2 * d)).

End Vector.

(** ** physics.ts: the integrator and the resolver *)

Definition updateBallPhysics (ball : Ball) (deltaTime : R) : Ball :=
  let gravity := Vector.create 0 PHYSICS_CONSTANTS.GRAVITY in
  let gravityForce := Vector.multiply gravity deltaTime in
  let newVelocity := Vector.add (velocity ball) gravityForce in
  let newVelocity := Vector.multiply newVelocity PHYSICS_CONSTANTS.FRICTION in
  let newVelocity :=
    if Rlt_dec (Vector.magnitude newVelocity) PHYSICS_CONSTANTS.MIN_VELOCITY
    then mkVector2D 0 0
    else newVelocity in
  let velocityDelta := Vector.multiply newVelocity deltaTime in
  let newPosition := Vector.add (position ball) velocityDelta in
  mkBall newPosition newVelocity (radius ball).

(** The candidate normal of a wall: the wall vector turned by a quarter turn,
    normalised (lines 139-143 of [handleWallCollision]). *)
Definition candidateNormal (wallStart wallEnd : Vector2D) : Vector2D :=
  let wallVector := Vector.subtract wallEnd wallStart in
  Vector.normalize (mkVector2D (- y wallVector) (x wallVector)).

(** [ballCenter - wallMidpoint] (lines 146-148). *)
Definition ballDirectionOf (ball : Ball) (wallStart wallEnd : Vector2D) : Vector2D :=
  let ballCenter := position ball in
  let wallMidpoint := Vector.multiply (Vector.add wallStart wallEnd) (1 / 2) in
  Vector.subtract ballCenter wallMidpoint.

(** The value of [wallNormal] after the orientation test (lines 150-153). *)
Definition orientedNormal (ball : Ball) (wallStart wallEnd : Vector2D) : Vector2D :=
  let wallNormal := candidateNormal wallStart wallEnd in
  let ballDirection := ballDirectionOf ball wallStart wallEnd in
  if Rlt_dec (Vector.dot wallNormal ballDirection) 0
  then mkVector2D (- x wallNormal) (- y wallNormal)
  else wallNormal.

Definition handleWallCollision
    (ball : Ball) (wallStart wallEnd : Vector2D) (distance : R) : Ball :=
  if Rgt_dec distance (radius ball) then ball
  else
    let wallNormal := orientedNormal ball wallStart wallEnd in
    let reflectedVelocity := Vector.reflect (velocity ball) wallNormal in
    let dampedVelocity :=
      Vector.multiply reflectedVelocity PHYSICS_CONSTANTS.BOUNCE_DAMPING in
    let penetration := radius ball - distance in
    let correctionVector := Vector.multiply wallNormal penetration in
    let correctedPosition := Vector.add (position ball) correctionVector in
    mkBall correctedPosition dampedVelocity (radius ball).

Definition createBall (a b r : R) : Ball :=
  mkBall (mkVector2D a b) (mkVector2D 0 0) r.

(** ** collision.ts: data *)

Definition HexagonVertex : Type := Vector2D.

Record LineSegment : Type := mkLineSegment {
  seg_start : Vector2D;
  seg_end : Vector2D
}.

(** A number that may be [Infinity]. *)
Inductive Num : Type :=
| Finite (r : R)
| Infinity.

Record CollisionResult : Type := mkCollisionResult {
  hasCollision : bool;
  distance : Num;
  wallStart : Vector2D;
  wallEnd : Vector2D
}.

(** [d < m] and [m <= r] for a possibly infinite [m]. *)
Definition lt_Num (d : R) (m : Num) : bool :=
  match m with
  | Finite r => if Rlt_dec d r then true else false
  | Infinity => true
  end.

Definition Num_le (m : Num) (r : R) : bool :=
  match m with
  | Finite d => if Rle_dec d r then true else false
  | Infinity => false
  end.

(** ** collision.ts: geometry *)

Definition hexagonAngle (i : nat) (rotation : R) : R :=
  (PI / 3) * INR i + rotation.

Definition hexagonVertex (centerX centerY radius rotation : R) (i : nat)
  : HexagonVertex :=
  let angle := hexagonAngle i rotation in
  mkVector2D (centerX + radius * cos angle) (centerY + radius * sin angle).

Definition generateHexagonVertices (centerX centerY radius rotation : R)
  : list HexagonVertex :=
  map (hexagonVertex centerX centerY radius rotation) (seq 0 6).

Definition origin : Vector2D := mkVector2D 0 0.

Definition getHexagonEdges (vertices : list HexagonVertex) : list LineSegment :=
  map (fun i =>
         let s := nth i vertices origin in
         let e := nth ((i + 1) mod length vertices) vertices origin in
         mkLineSegment (mkVector2D (x s) (y s)) (mkVector2D (x e) (y e)))
      (seq 0 (length vertices)).

Definition pointToLineSegmentDistance (point lineStart lineEnd : Vector2D) : R :=
  let A := x point - x lineStart in
  let B := y point - y lineStart in
  let C := x lineEnd - x lineStart in
  let D := y lineEnd - y lineStart in
  let dot := A * C + B * D in
  let lenSq := C * C + D * D in
  if Req_dec_T lenSq 0 then sqrt (A * A + B * B)
  else
    let param := dot / lenSq in
    let closestPoint :=
      if Rlt_dec param 0 then lineStart
      else if Rgt_dec param 1 then lineEnd
      else mkVector2D (x lineStart + param * C) (y lineStart + param * D) in
    let dx := x point - x closestPoint in
    let dy := y point - y closestPoint in
    sqrt (dx * dx + dy * dy).

(** ** collision.ts: the detector *)

(** One iteration of the scan over the edges: the pair is
    [(minDistance, closestWall)], with [None] for [null]. *)
Definition scanEdge (ballPosition : Vector2D)
    (st : Num * option LineSegment) (edge : LineSegment)
  : Num * option LineSegment :=
  let d := pointToLineSegmentDistance ballPosition (seg_start edge) (seg_end edge) in
  if lt_Num d (fst st) then (Finite d, Some edge) else st.

Definition checkHexagonCollision
    (ballPosition : Vector2D) (ballRadius : R)
    (hexagonCenter : Vector2D) (hexagonRadius rotation : R) : CollisionResult :=
  let vertices :=
    generateHexagonVertices (x hexagonCenter) (y hexagonCenter) hexagonRadius rotation in
  let edges := getHexagonEdges vertices in
  let '(minDistance, closestWall) :=
    fold_left (scanEdge ballPosition) edges (Infinity, None) in
  match closestWall with
  | None => mkCollisionResult false Infinity origin origin
  | Some w =>
      mkCollisionResult (Num_le minDistance ballRadius) minDistance
                        (seg_start w) (seg_end w)
  end.

(** [a > p !== b > p] on reals. *)
Definition Rgtb (a b : R) : bool := if Rgt_dec a b then true else false.
Definition Rltb (a b : R) : bool := if Rlt_dec a b then true else false.

(** The test of the ray-casting loop for the edge from vertex [vj] to [vi]. *)
Definition rayCrosses (point vi vj : Vector2D) : bool :=
  let xi := x vi in
  let yi := y vi in
  let xj := x vj in
  let yj := y vj in
  negb (eqb (Rgtb yi (y point)) (Rgtb yj (y point)))
  && Rltb (x point) (((xj - xi) * (y point - yi)) / (yj - yi) + xi).

(** The loop [for (i = 0, j = n - 1; i < n; j = i++)]: the state is
    [(inside, j)]. *)
Definition rayStep (point : Vector2D) (vertices : list HexagonVertex)
    (st : bool * nat) (i : nat) : bool * nat :=
  let '(inside, j) := st in
  let vi := nth i vertices origin in
  let vj := nth j vertices origin in
  ((if rayCrosses point vi vj then negb inside else inside), i).

Definition isPointInsideHexagon
    (point hexagonCenter : Vector2D) (hexagonRadius rotation : R) : bool :=
  let vertices :=
    generateHexagonVertices (x hexagonCenter) (y hexagonCenter) hexagonRadius rotation in
  fst (fold_left (rayStep point vertices) (seq 0 (length vertices))
                 (false, (length vertices - 1)%nat)).

(** [random1] and [random2] are the two values [Math.random()] returns, in
    the order the code draws them. *)
Definition constrainBallInsideHexagon
    (ballPosition : Vector2D) (ballRadius : R)
    (hexagonCenter : Vector2D) (hexagonRadius rotation : R)
    (random1 random2 : R) : Vector2D :=
  let collision :=
    checkHexagonCollision ballPosition ballRadius hexagonCenter hexagonRadius rotation in
  if negb (hasCollision collision) then ballPosition
  else
    let directionToCenter := Vector.subtract hexagonCenter ballPosition in
    let distanceToCenter := Vector.magnitude directionToCenter in
    if Req_dec_T distanceToCenter 0
    then Vector.add ballPosition (mkVector2D (random1 - 1 / 2) (random2 - 1 / 2))
    else
      let normalizedDirection := Vector.normalize directionToCenter in
      let safeDistance := hexagonRadius - ballRadius - 10 in
      Vector.add hexagonCenter (Vector.multiply normalizedDirection (- safeDistance)).

(** ** HexagonBounce.tsx: the state updates of the component

    The functions the component passes to [setBall], without their effects
    on the canvas, the sound and the collision counter.  [rotation] is the
    value of [rotationRef.current] the function reads. *)

Record GameConfig : Type := mkGameConfig {
  canvasWidth : R;
  canvasHeight : R;
  hexagonRadius : R;
  rotationSpeed : R;
  ballRadius : R
}.

Definition DEFAULT_CONFIG : GameConfig :=
  mkGameConfig 600 600 200 (2 / 100) 8.

(** [deltaTime] of [gameLoop]. *)
Definition frameDeltaTime (lastTime currentTime : R) : R :=
  if Req_dec_T lastTime 0 then 0
  else Rmin ((currentTime - lastTime) / 1000) (16 / 1000).

(** [handleWallCollision] applied to the [distance] field of a
    [CollisionResult]: [Infinity > ball.radius] holds, so the ball is
    returned. *)
Definition handleWallCollisionNum
    (ball : Ball) (ws we : Vector2D) (d : Num) : Ball :=
  match d with
  | Finite r => handleWallCollision ball ws we r
  | Infinity => ball
  end.

(** The ball [gameLoop] hands to the detector: the integrated ball with the
    configured radius. *)
Definition integratedBall
    (config : GameConfig) (prevBall : Ball) (deltaTime : R) : Ball :=
  let updatedBall := updateBallPhysics prevBall deltaTime in
  mkBall (position updatedBall) (velocity updatedBall) (ballRadius config).

Definition canvasCenterOf (config : GameConfig) : Vector2D :=
  mkVector2D (canvasWidth config / 2) (canvasHeight config / 2).

(** The ball update of [gameLoop]. *)
Definition gameLoopBall
    (config : GameConfig) (rotation : R) (prevBall : Ball) (deltaTime : R) : Ball :=
  let updatedBall := updateBallPhysics prevBall deltaTime in
  let updatedBall :=
    mkBall (position updatedBall) (velocity updatedBall) (ballRadius config) in
  let hexagonCenter :=
    mkVector2D (canvasWidth config / 2) (canvasHeight config / 2) in
  let collision :=
    checkHexagonCollision (position updatedBall) (radius updatedBall)
      hexagonCenter (hexagonRadius config) rotation in
  if hasCollision collision
  then handleWallCollisionNum updatedBall
         (wallStart collision) (wallEnd collision) (distance collision)
  else updatedBall.

(** The ball update of [handleConfigChange], for the merged configuration
    [updated]. *)
Definition configChangeBall
    (updated : GameConfig) (rotation : R) (prevBall : Ball)
    (random1 random2 : R) : Ball :=
  let hexagonCenter :=
    mkVector2D (canvasWidth updated / 2) (canvasHeight updated / 2) in
  let constrainedPosition :=
    constrainBallInsideHexagon (position prevBall) (ballRadius updated)
      hexagonCenter (hexagonRadius updated) rotation random1 random2 in
  mkBall constrainedPosition (velocity prevBall) (ballRadius updated).

(** The ball [resetBall] installs. *)
Definition resetBall
    (config : GameConfig) (rotation random1 random2 : R) : Ball :=
  let hexagonCenter :=
    mkVector2D (canvasWidth config / 2) (canvasHeight config / 2) in
  let newPosition :=
    constrainBallInsideHexagon
      (mkVector2D (canvasWidth config / 2) (canvasHeight config / 2 - 50))
      (ballRadius config) hexagonCenter (hexagonRadius config) rotation
      random1 random2 in
  createBall (x newPosition) (y newPosition) (ballRadius config).

(** The ball update of [handleCanvasClick]. *)
Definition clickBall (prevBall : Ball) (clickX clickY : R) : Ball :=
  let direction :=
    Vector.subtract (mkVector2D clickX clickY) (position prevBall) in
  let normalizedDirection := Vector.normalize direction in
  let impulse := Vector.multiply normalizedDirection 300 in
  mkBall (position prevBall) (Vector.add (velocity prevBall) impulse)
         (radius prevBall).

(** ** Notions used in the statements *)

(** The point of the segment the code measures the distance to. *)
Definition closestPointOf (point lineStart lineEnd : Vector2D) : Vector2D :=
  let A := x point - x lineStart in
  let B := y point - y lineStart in
  let C := x lineEnd - x lineStart in
  let D := y lineEnd - y lineStart in
  let dot := A * C + B * D in
  let lenSq := C * C + D * D in
  if Req_dec_T lenSq 0 then lineStart
  else
    let param := dot / lenSq in
    if Rlt_dec param 0 then lineStart
    else if Rgt_dec param 1 then lineEnd
    else mkVector2D (x lineStart + param * C) (y lineStart + param * D).

(** The point [a + t (b - a)] of the line through [a] and [b]. *)
Definition pointAt (a b : Vector2D) (t : R) : Vector2D :=
  mkVector2D (x a + t * (x b - x a)) (y a + t * (y b - y a)).

(** [(p - a) . (b - a)] and [|b - a|^2]: the values of the local variables
    [dot] and [lenSq] of [pointToLineSegmentDistance]. *)
Definition segmentDot (p a b : Vector2D) : R :=
  Vector.dot (Vector.subtract p a) (Vector.subtract b a).

Definition segmentLenSq (a b : Vector2D) : R :=
  Vector.dot (Vector.subtract b a) (Vector.subtract b a).

(** The parameter of the orthogonal projection of [p] on the line through
    [a] and [b]. *)
Definition projectionParam (p a b : Vector2D) : R :=
  segmentDot p a b / segmentLenSq a b.

(** The squared distance from [p] to [pointAt a b s]. *)
Definition squaredDistanceAt (p a b : Vector2D) (s : R) : R :=
  (x p - x a - s * (x b - x a)) * (x p - x a - s * (x b - x a))
  + (y p - y a - s * (y b - y a)) * (y p - y a - s * (y b - y a)).

Definition clamp01 (t : R) : R := Rmax 0 (Rmin 1 t).

Definition noSegment : LineSegment := mkLineSegment origin origin.

(** The distance the scan computes for an edge. *)
Definition edgeDistance (ballPosition : Vector2D) (e : LineSegment) : R :=
  pointToLineSegmentDistance ballPosition (seg_start e) (seg_end e).

(** [k] is the first position of [edges] whose distance is the least. *)
Definition firstNearest (ballPosition : Vector2D)
    (edges : list LineSegment) (k : nat) : Prop :=
  (k < length edges)%nat
  /\ (forall j, (j < length edges)%nat ->
        edgeDistance ballPosition (nth k edges noSegment)
        <= edgeDistance ballPosition (nth j edges noSegment))
  /\ (forall j, (j < k)%nat ->
        edgeDistance ballPosition (nth k edges noSegment)
        < edgeDistance ballPosition (nth j edges noSegment)).

(** The [i]-th edge of the hexagon: from vertex [i] to vertex
    [(i + 1) mod 6]. *)
Definition hexagonEdge (centerX centerY radius rotation : R) (i : nat)
  : LineSegment :=
  mkLineSegment (hexagonVertex centerX centerY radius rotation i)
                (hexagonVertex centerX centerY radius rotation ((i + 1) mod 6)).

(** The distance from [p] to the [i]-th edge. *)
Definition hexagonEdgeDistance (p c : Vector2D) (r rot : R) (i : nat) : R :=
  pointToLineSegmentDistance p
    (seg_start (hexagonEdge (x c) (y c) r rot i))
    (seg_end (hexagonEdge (x c) (y c) r rot i)).

(** The point at angle [angle] and distance [radius] from [center]. *)
Definition polarPoint (center : Vector2D) (radius angle : R) : Vector2D :=
  mkVector2D (x center + radius * cos angle) (y center + radius * sin angle).

(** The position of vertex [i] relative to the centre, from the position
    [(a, b)] of vertex 0: the turns of [(a, b)] by multiples of 60 degrees. *)
Definition hexagonOffset (a b : R) (i : nat) : Vector2D :=
  match i with
  | 0%nat => mkVector2D a b
  | 1%nat => mkVector2D (a / 2 - b * sqrt 3 / 2) (b / 2 + a * sqrt 3 / 2)
  | 2%nat => mkVector2D (- a / 2 - b * sqrt 3 / 2) (- b / 2 + a * sqrt 3 / 2)
  | 3%nat => mkVector2D (- a) (- b)
  | 4%nat => mkVector2D (- a / 2 + b * sqrt 3 / 2) (- b / 2 - a * sqrt 3 / 2)
  | _ => mkVector2D (a / 2 + b * sqrt 3 / 2) (b / 2 - a * sqrt 3 / 2)
  end.

(** ** Sample inputs *)

(** A ball whose closest point of the wall is the wall's end. *)
Definition cornerBall : Ball := mkBall (mkVector2D 7 4) (mkVector2D 0 0) 6.
Definition cornerWallStart : Vector2D := mkVector2D 0 0.
Definition cornerWallEnd : Vector2D := mkVector2D 4 0.

(** A ball above the middle part of a wall. *)
Definition exampleBall : Ball := mkBall (mkVector2D 3 4) (mkVector2D 1 (-2)) 8.
Definition exampleWallStart : Vector2D := mkVector2D 0 0.
Definition exampleWallEnd : Vector2D := mkVector2D 20 0.

(** The segment of the specification's scenarios. *)
Definition scenarioStart : Vector2D := mkVector2D 0 (-5).
Definition scenarioEnd : Vector2D := mkVector2D 0 5.

(** The canvas centre of the application, and a ball position that a
    hexagon of radius 100 around it no longer contains. *)
Definition canvasCenter : Vector2D := mkVector2D 300 300.
Definition escapedPosition : Vector2D := mkVector2D 480 300.

(** A ball at rest whose centre is the middle of the first wall of the
    hexagon of the default configuration. *)
Definition wallMiddleBall : Ball :=
  mkBall (pointAt (hexagonVertex 300 300 200 0 0) (hexagonVertex 300 300 200 0 1)
                  (1 / 2))
         (mkVector2D 0 0) 8.

(** * Properties *)

(** ** Vector arithmetic *)

Section VectorFacts.

Import Vector.

Lemma magnitude_nonneg (v : Vector2D) : 0 <= magnitude v.
Proof. apply sqrt_pos. Qed.

Lemma sum_squares_nonneg (a b : R) : 0 <= a * a + b * b.
Proof. nra. Qed.

Lemma magnitude_sqr (v : Vector2D) :
  magnitude v * magnitude v = x v * x v + y v * y v.
Proof. apply sqrt_sqrt, sum_squares_nonneg. Qed.

Lemma magnitude_zero_iff (v : Vector2D) :
  magnitude v = 0 <-> x v = 0 /\ y v = 0.
Proof.
  split.
  - intros H. pose proof (magnitude_sqr v) as E. rewrite H in E.
    split; nra.
  - intros [Hx Hy]. unfold magnitude. rewrite Hx, Hy.
    replace (0 * 0 + 0 * 0) with 0 by ring. apply sqrt_0.
Qed.

(** [normalize] returns a unit vector, or the zero vector for the zero
    vector. *)
Lemma normalize_unit (v : Vector2D) :
  magnitude v <> 0 ->
  x (normalize v) * x (normalize v) + y (normalize v) * y (normalize v) = 1.
Proof.
  intros Hm. unfold normalize.
  destruct (Req_dec_T (magnitude v) 0) as [E | _]; [contradiction |].
  cbn [x y]. pose proof (magnitude_sqr v) as S.
  field_simplify_eq; [nra | exact Hm].
Qed.

Lemma normalize_zero (v : Vector2D) :
  magnitude v = 0 -> normalize v = mkVector2D 0 0.
Proof.
  intros Hm. unfold normalize.
  destruct (Req_dec_T (magnitude v) 0); [reflexivity | contradiction].
Qed.

Lemma normalize_cases (v : Vector2D) :
  normalize v = mkVector2D 0 0 \/
  x (normalize v) * x (normalize v) + y (normalize v) * y (normalize v) = 1.
Proof.
  destruct (Req_dec_T (magnitude v) 0) as [E | N].
  - left. now apply normalize_zero.
  - right. now apply normalize_unit.
Qed.

(** Reflection about a normal keeps the squared length. *)
Lemma reflect_sqr (v n : Vector2D) :
  x (reflect v n) * x (reflect v n) + y (reflect v n) * y (reflect v n)
  = x v * x v + y v * y v.
Proof.
  unfold reflect. destruct (normalize_cases n) as [Z | U].
  - rewrite Z. unfold subtract, multiply, dot. cbn [x y]. ring.
  - set (u := normalize n) in *. unfold subtract, multiply, dot. cbn [x y].
    replace ((x v - x u * (2 * (x v * x u + y v * y u)))
             * (x v - x u * (2 * (x v * x u + y v * y u)))
             + (y v - y u * (2 * (x v * x u + y v * y u)))
               * (y v - y u * (2 * (x v * x u + y v * y u))))
      with (x v * x v + y v * y v
            + 4 * (x v * x u + y v * y u) * (x v * x u + y v * y u)
              * (x u * x u + y u * y u - 1)) by ring.
    rewrite U. ring.
Qed.

Lemma reflect_magnitude (v n : Vector2D) :
  magnitude (reflect v n) = magnitude v.
Proof. unfold magnitude at 1. rewrite reflect_sqr. reflexivity. Qed.

Lemma magnitude_multiply (v : Vector2D) (k : R) :
  0 <= k -> magnitude (multiply v k) = k * magnitude v.
Proof.
  intros Hk. unfold magnitude, multiply. cbn [x y].
  replace (x v * k * (x v * k) + y v * k * (y v * k))
    with (k * k * (x v * x v + y v * y v)) by ring.
  rewrite sqrt_mult_alt by nra.
  rewrite sqrt_square by exact Hk. reflexivity.
Qed.

(** Cauchy-Schwarz against a unit vector. *)
Lemma dot_unit_le_magnitude (n v : Vector2D) :
  x n * x n + y n * y n = 1 -> dot n v <= magnitude v.
Proof.
  intros U. unfold dot, magnitude.
  apply Rsqr_incr_0_var; [| apply sqrt_pos].
  unfold Rsqr. rewrite sqrt_sqrt by apply sum_squares_nonneg.
  pose proof (sum_squares_nonneg (x n * y v - y n * x v) 0) as H.
  replace (x v * x v + y v * y v)
    with ((x n * x n + y n * y n) * (x v * x v + y v * y v))
    by (rewrite U; ring).
  nra.
Qed.

End VectorFacts.

(** ** The wall normal of the resolver *)

Section WallNormal.

Import Vector.

Variables (ball : Ball) (ws we : Vector2D).

Lemma wall_vector_nonzero :
  ws <> we ->
  magnitude (mkVector2D (- y (subtract we ws)) (x (subtract we ws))) <> 0.
Proof.
  intros Hne Hm. apply magnitude_zero_iff in Hm. cbn [x y subtract] in Hm.
  destruct Hm as [Hy Hx]. apply Hne.
  destruct ws as [a b], we as [c d]. cbn [x y] in *.
  f_equal; lra.
Qed.

Lemma candidateNormal_unit :
  ws <> we ->
  x (candidateNormal ws we) * x (candidateNormal ws we)
  + y (candidateNormal ws we) * y (candidateNormal ws we) = 1.
Proof.
  intros Hne. unfold candidateNormal. cbv zeta.
  apply normalize_unit, wall_vector_nonzero, Hne.
Qed.

(** The candidate normal is perpendicular to the wall. *)
Lemma candidateNormal_perp :
  dot (candidateNormal ws we) (subtract we ws) = 0.
Proof.
  unfold candidateNormal. cbv zeta. unfold normalize.
  destruct (Req_dec_T _ 0) as [E | N]; unfold dot; cbn [x y].
  - ring.
  - field. exact N.
Qed.

Lemma orientedNormal_sqr :
  x (orientedNormal ball ws we) * x (orientedNormal ball ws we)
  + y (orientedNormal ball ws we) * y (orientedNormal ball ws we)
  = x (candidateNormal ws we) * x (candidateNormal ws we)
    + y (candidateNormal ws we) * y (candidateNormal ws we).
Proof.
  unfold orientedNormal. cbv zeta.
  destruct (Rlt_dec _ 0); cbn [x y]; ring.
Qed.

Lemma orientedNormal_perp :
  dot (orientedNormal ball ws we) (subtract we ws) = 0.
Proof.
  pose proof candidateNormal_perp as P.
  unfold orientedNormal. cbv zeta.
  destruct (Rlt_dec _ 0); [| exact P].
  unfold dot in *. cbn [x y] in *. lra.
Qed.

(** After the orientation test the normal has a non-negative component
    along [ballCenter - wallMidpoint]: the absolute value of the
    candidate's. *)
Lemma orientedNormal_dot :
  dot (orientedNormal ball ws we) (ballDirectionOf ball ws we)
  = Rabs (dot (candidateNormal ws we) (ballDirectionOf ball ws we)).
Proof.
  unfold orientedNormal. cbv zeta.
  destruct (Rlt_dec _ 0) as [L | G].
  - rewrite Rabs_left by exact L. unfold dot. cbn [x y]. ring.
  - rewrite Rabs_right by lra. reflexivity.
Qed.

(** What the resolver returns on a collision, in terms of the oriented
    normal. *)
Lemma handleWallCollision_collision (d : R) :
  d <= radius ball ->
  handleWallCollision ball ws we d
  = mkBall
      (add (position ball)
           (multiply (orientedNormal ball ws we) (radius ball - d)))
      (multiply (reflect (velocity ball) (orientedNormal ball ws we))
                PHYSICS_CONSTANTS.BOUNCE_DAMPING)
      (radius ball).
Proof.
  intros Hd. unfold handleWallCollision.
  destruct (Rgt_dec d (radius ball)) as [G | _]; [lra | reflexivity].
Qed.

End WallNormal.

(** ** Distance from a point to a segment *)

Section SegmentDistance.

Import Vector.

Lemma distance_to_closestPoint (p a b : Vector2D) :
  pointToLineSegmentDistance p a b
  = magnitude (subtract p (closestPointOf p a b)).
Proof.
  unfold pointToLineSegmentDistance, closestPointOf. cbv zeta.
  destruct (Req_dec_T _ 0); [reflexivity |].
  destruct (Rlt_dec _ 0); [reflexivity |].
  destruct (Rgt_dec _ 1); reflexivity.
Qed.

(** The closest point is a point [a + t (b - a)] of the segment, with
    [0 <= t <= 1]. *)
Lemma closestPoint_on_segment (p a b : Vector2D) :
  exists t, 0 <= t <= 1 /\
    closestPointOf p a b
    = mkVector2D (x a + t * (x b - x a)) (y a + t * (y b - y a)).
Proof.
  unfold closestPointOf. cbv zeta.
  destruct (Req_dec_T _ 0).
  - exists 0. split; [lra |]. destruct a; cbn [x y]. f_equal; ring.
  - destruct (Rlt_dec _ 0).
    + exists 0. split; [lra |]. destruct a; cbn [x y]. f_equal; ring.
    + destruct (Rgt_dec _ 1).
      * exists 1. split; [lra |]. destruct b; cbn [x y]. f_equal; ring.
      * eexists. split; [| reflexivity]. lra.
Qed.

(** A segment whose two ends lie in the half plane [n . q <= c], for a
    unit vector [n], is at least [n . p - c] away from [p]. *)
Lemma distance_ge_halfplane (n p a b : Vector2D) (c : R) :
  x n * x n + y n * y n = 1 ->
  dot n a <= c -> dot n b <= c ->
  dot n p - c <= pointToLineSegmentDistance p a b.
Proof.
  intros U Ha Hb. rewrite distance_to_closestPoint.
  destruct (closestPoint_on_segment p a b) as [t [Ht E]]. rewrite E.
  eapply Rle_trans; [| apply (dot_unit_le_magnitude n); exact U].
  unfold dot, subtract in *. cbn [x y].
  assert (H1 : 0 <= (1 - t) * (c - (x n * x a + y n * y a))).
  { apply Rmult_le_pos; lra. }
  assert (H2 : 0 <= t * (c - (x n * x b + y n * y b))).
  { apply Rmult_le_pos; lra. }
  lra.
Qed.

End SegmentDistance.

(** ** The collision resolver *)

Section Resolver.

Import Vector.

(** Pushing the ball along the oriented normal by [radius - d] puts it at
    least [radius] away from the wall, as soon as [d] does not exceed the
    distance from the ball centre to the line through the wall. *)
Lemma resolver_clears_wall (ball : Ball) (ws we : Vector2D) (d : R) :
  ws <> we ->
  d <= Rabs (dot (candidateNormal ws we) (ballDirectionOf ball ws we)) ->
  radius ball
  <= pointToLineSegmentDistance
       (add (position ball)
            (multiply (orientedNormal ball ws we) (radius ball - d)))
       ws we.
Proof.
  intros Hne Hd.
  pose proof (orientedNormal_sqr ball ws we) as U.
  rewrite (candidateNormal_unit ws we Hne) in U.
  pose proof (orientedNormal_perp ball ws we) as P.
  pose proof (orientedNormal_dot ball ws we) as O.
  rewrite <- O in Hd. clear O.
  set (n := orientedNormal ball ws we) in *.
  eapply Rle_trans;
    [| apply (distance_ge_halfplane n _ ws we (dot n ws) U);
       [apply Rle_refl |]].
  - unfold dot, add, multiply, subtract, ballDirectionOf in *.
    cbn [x y] in *.
    replace (x n * (x (position ball) + x n * (radius ball - d))
             + y n * (y (position ball) + y n * (radius ball - d))
             - (x n * x ws + y n * y ws))
      with (x n * (x (position ball) - x ws)
            + y n * (y (position ball) - y ws)
            + (x n * x n + y n * y n) * (radius ball - d)) by ring.
    rewrite U. cbv beta zeta delta [subtract multiply add] in Hd.
    cbn [x y] in Hd. lra.
  - unfold dot, subtract in *. cbn [x y] in *. lra.
Qed.

End Resolver.

(** C10.  With [distance > ball.radius] the resolver returns its ball
    argument unchanged: same position, same velocity, same radius. *)
Theorem handleWallCollision_noop
    (ball : Ball) (ws we : Vector2D) (d : R) :
  d > radius ball ->
  handleWallCollision ball ws we d = ball
  /\ position (handleWallCollision ball ws we d) = position ball
  /\ velocity (handleWallCollision ball ws we d) = velocity ball
  /\ radius (handleWallCollision ball ws we d) = radius ball.
Proof.
  intros Hd.
  assert (E : handleWallCollision ball ws we d = ball).
  { unfold handleWallCollision.
    destruct (Rgt_dec d (radius ball)); [reflexivity | contradiction]. }
  rewrite E. repeat split.
Qed.

Lemma handleWallCollision_noop_witness :
  10 > radius exampleBall
  /\ handleWallCollision exampleBall exampleWallStart exampleWallEnd 10 = exampleBall.
Proof.
  assert (H : 10 > radius exampleBall) by (cbn [radius exampleBall]; lra).
  split; [exact H |].
  exact (proj1 (handleWallCollision_noop
                  exampleBall exampleWallStart exampleWallEnd 10 H)).
Defined.

(** C5.  On a collision ([distance <= ball.radius]) the normal the resolver
    reflects the velocity about and moves the position along is the oriented
    normal, and its dot product with [ball.position - wallMidpoint],
    [wallMidpoint = (wallStart + wallEnd) / 2], is non-negative. *)
Theorem handleWallCollision_normal_orientation
    (ball : Ball) (ws we : Vector2D) (d : R) :
  d <= radius ball ->
  let normal := orientedNormal ball ws we in
  let wallMidpoint := Vector.multiply (Vector.add ws we) (1 / 2) in
  velocity (handleWallCollision ball ws we d)
  = Vector.multiply (Vector.reflect (velocity ball) normal)
                    PHYSICS_CONSTANTS.BOUNCE_DAMPING
  /\ position (handleWallCollision ball ws we d)
     = Vector.add (position ball) (Vector.multiply normal (radius ball - d))
  /\ Vector.dot normal (Vector.subtract (position ball) wallMidpoint) >= 0.
Proof.
  intros Hd normal wallMidpoint.
  rewrite (handleWallCollision_collision ball ws we d Hd). cbn [velocity position].
  repeat split.
  pose proof (orientedNormal_dot ball ws we) as O.
  unfold ballDirectionOf in O. cbv zeta in O.
  subst normal wallMidpoint. rewrite O. apply Rle_ge, Rabs_pos.
Qed.

Lemma handleWallCollision_normal_orientation_witness :
  4 <= radius exampleBall
  /\ Vector.dot (orientedNormal exampleBall exampleWallStart exampleWallEnd)
       (Vector.subtract (position exampleBall)
          (Vector.multiply (Vector.add exampleWallStart exampleWallEnd) (1 / 2)))
     >= 0.
Proof.
  assert (H : 4 <= radius exampleBall) by (cbn [radius exampleBall]; lra).
  split; [exact H |].
  exact (proj2 (proj2
    (handleWallCollision_normal_orientation
       exampleBall exampleWallStart exampleWallEnd 4 H))).
Defined.

(** C4.  On a collision ([distance <= ball.radius]) the velocity the
    resolver returns is no longer than the velocity it was given. *)
Theorem handleWallCollision_energy
    (ball : Ball) (ws we : Vector2D) (d : R) :
  d <= radius ball ->
  Vector.magnitude (velocity (handleWallCollision ball ws we d))
  <= Vector.magnitude (velocity ball).
Proof.
  intros Hd.
  rewrite (handleWallCollision_collision ball ws we d Hd). cbn [velocity].
  rewrite magnitude_multiply by (unfold PHYSICS_CONSTANTS.BOUNCE_DAMPING; lra).
  rewrite reflect_magnitude.
  pose proof (magnitude_nonneg (velocity ball)).
  unfold PHYSICS_CONSTANTS.BOUNCE_DAMPING. lra.
Qed.

Lemma handleWallCollision_energy_witness :
  4 <= radius exampleBall
  /\ Vector.magnitude
       (velocity (handleWallCollision exampleBall exampleWallStart exampleWallEnd 4))
     <= Vector.magnitude (velocity exampleBall).
Proof.
  assert (H : 4 <= radius exampleBall) by (cbn [radius exampleBall]; lra).
  split; [exact H |].
  exact (handleWallCollision_energy exampleBall exampleWallStart exampleWallEnd 4 H).
Defined.

(** ** Evaluating the segment distance *)

Section SegmentBranches.

Import Vector.

Variables p a b : Vector2D.

Ltac name_parts :=
  unfold segmentDot, segmentLenSq, dot, subtract in *; cbn [x y] in *;
  set (A := x p - x a) in *; set (B := y p - y a) in *;
  set (C := x b - x a) in *; set (D := y b - y a) in *.

Lemma distance_degenerate :
  segmentLenSq a b = 0 ->
  pointToLineSegmentDistance p a b = magnitude (subtract p a).
Proof.
  intros H. unfold pointToLineSegmentDistance, magnitude. cbv zeta. name_parts.
  destruct (Req_dec_T (C * C + D * D) 0); [| contradiction].
  reflexivity.
Qed.

Lemma distance_before_start :
  segmentDot p a b < 0 ->
  pointToLineSegmentDistance p a b = magnitude (subtract p a).
Proof.
  intros H. unfold pointToLineSegmentDistance, magnitude. cbv zeta. name_parts.
  destruct (Req_dec_T (C * C + D * D) 0); [reflexivity |].
  assert (L : 0 < C * C + D * D) by (pose proof (sum_squares_nonneg C D); lra).
  destruct (Rlt_dec _ 0) as [_ | N]; [reflexivity |].
  exfalso. apply N. unfold Rdiv.
  replace 0 with (0 * / (C * C + D * D)) by ring.
  apply Rmult_lt_compat_r; [apply Rinv_0_lt_compat, L | exact H].
Qed.

Lemma distance_beyond_end :
  segmentLenSq a b < segmentDot p a b ->
  pointToLineSegmentDistance p a b = magnitude (subtract p b).
Proof.
  intros H. unfold pointToLineSegmentDistance, magnitude. cbv zeta. name_parts.
  pose proof (sum_squares_nonneg C D) as S.
  destruct (Req_dec_T (C * C + D * D) 0) as [E | NE].
  - rewrite E in H.
    assert (C = 0 /\ D = 0) as [C0 D0] by (split; nra).
    rewrite C0, D0 in H. lra.
  - assert (L : 0 < C * C + D * D) by lra.
    assert (P1 : 1 < (A * C + B * D) / (C * C + D * D)).
    { apply (Rmult_lt_reg_r (C * C + D * D)); [exact L |].
      unfold Rdiv. rewrite Rmult_assoc, Rinv_l by exact NE. lra. }
    destruct (Rlt_dec _ 0) as [N | _]; [lra |].
    destruct (Rgt_dec _ 1) as [_ | N]; [reflexivity | lra].
Qed.

Lemma distance_inside :
  segmentLenSq a b <> 0 ->
  0 <= segmentDot p a b <= segmentLenSq a b ->
  pointToLineSegmentDistance p a b
  = magnitude (subtract p (pointAt a b (projectionParam p a b))).
Proof.
  intros NE H.
  unfold pointToLineSegmentDistance, magnitude, pointAt, projectionParam.
  cbv zeta. name_parts.
  pose proof (sum_squares_nonneg C D) as S.
  assert (L : 0 < C * C + D * D) by lra.
  set (t := (A * C + B * D) / (C * C + D * D)).
  assert (T : t * (C * C + D * D) = A * C + B * D).
  { unfold t. field. exact NE. }
  destruct (Req_dec_T (C * C + D * D) 0); [contradiction |].
  destruct (Rlt_dec t 0) as [N | _]; [nra |].
  destruct (Rgt_dec t 1) as [N | _]; [nra | reflexivity].
Qed.

End SegmentBranches.

(** ** Concrete evaluation *)

Lemma magnitude_eq (v : Vector2D) (m : R) :
  0 <= m -> x v * x v + y v * y v = m * m -> Vector.magnitude v = m.
Proof.
  intros Hm E. unfold Vector.magnitude. rewrite E. apply sqrt_square, Hm.
Qed.

Lemma normalize_eq (v : Vector2D) (m : R) :
  0 < m -> x v * x v + y v * y v = m * m ->
  Vector.normalize v = mkVector2D (x v / m) (y v / m).
Proof.
  intros Hm E. unfold Vector.normalize.
  rewrite (magnitude_eq v m) by (lra || exact E).
  destruct (Req_dec_T m 0); [lra | reflexivity].
Qed.

Lemma vector_eq (v : Vector2D) (a b : R) :
  x v = a -> y v = b -> v = mkVector2D a b.
Proof. destruct v; cbn [x y]; intros -> ->; reflexivity. Qed.

Lemma cornerBall_normal :
  orientedNormal cornerBall cornerWallStart cornerWallEnd = mkVector2D 0 1.
Proof.
  assert (E : candidateNormal cornerWallStart cornerWallEnd = mkVector2D 0 1).
  { unfold candidateNormal. cbv zeta.
    rewrite (normalize_eq _ 4);
      [| lra | unfold Vector.subtract, cornerWallStart, cornerWallEnd; cbn [x y]; ring].
    unfold Vector.subtract, cornerWallStart, cornerWallEnd. cbn [x y].
    f_equal; field. }
  unfold orientedNormal. cbv zeta. rewrite E.
  destruct (Rlt_dec _ 0) as [L | _]; [| reflexivity].
  exfalso. revert L.
  unfold Vector.dot, ballDirectionOf, Vector.subtract, Vector.multiply, Vector.add,
    cornerBall, cornerWallStart, cornerWallEnd.
  cbn [x y position]. lra.
Qed.

(** C1, at a failing input.  The ball at [(7,4)] with radius [6] is at
    distance [5] from the wall [(0,0)-(4,0)], whose closest point is the end
    [(4,0)]: the detector measures to that end, the resolver pushes along the
    normal of the wall's line.  The ball is moved to [(7,5)], which is at
    distance [sqrt 34 < 6] from the same wall: the position correction, meant
    to prevent penetration, leaves the ball overlapping the wall. *)
Lemma handleWallCollision_penetration_counterexample :
  pointToLineSegmentDistance (position cornerBall) cornerWallStart cornerWallEnd = 5
  /\ 5 <= radius cornerBall
  /\ position (handleWallCollision cornerBall cornerWallStart cornerWallEnd 5)
     = mkVector2D 7 5
  /\ pointToLineSegmentDistance
       (position (handleWallCollision cornerBall cornerWallStart cornerWallEnd 5))
       cornerWallStart cornerWallEnd
     < radius cornerBall.
Proof.
  assert (R5 : 5 <= radius cornerBall) by (cbn [radius cornerBall]; lra).
  assert (P : position (handleWallCollision cornerBall cornerWallStart cornerWallEnd 5)
              = mkVector2D 7 5).
  { rewrite (handleWallCollision_collision _ _ _ 5 R5). cbn [position].
    rewrite cornerBall_normal.
    unfold Vector.add, Vector.multiply, cornerBall. cbn [x y position radius].
    f_equal; ring. }
  split; [| split; [exact R5 | split; [exact P |]]].
  - rewrite distance_beyond_end
      by (unfold segmentDot, segmentLenSq, Vector.dot, Vector.subtract,
            cornerBall, cornerWallStart, cornerWallEnd;
          cbn [x y position]; lra).
    apply magnitude_eq; [lra |].
    unfold Vector.subtract, cornerBall, cornerWallEnd. cbn [x y position]. ring.
  - rewrite P.
    rewrite distance_beyond_end
      by (unfold segmentDot, segmentLenSq, Vector.dot, Vector.subtract,
            cornerWallStart, cornerWallEnd;
          cbn [x y]; lra).
    unfold Vector.magnitude, Vector.subtract, cornerWallEnd, cornerBall.
    cbn [x y radius].
    replace 6 with (sqrt (6 * 6)) by (apply sqrt_square; lra).
    apply sqrt_lt_1_alt. lra.
Qed.

(** Where the position correction does its work.  On a collision with a
    wall of positive length, when [distance] does not exceed the distance
    from the ball centre to the line through the wall (the absolute value of
    the candidate normal's component of [ball.position - wallMidpoint]), the
    returned position is at least [ball.radius] away from the wall
    segment. *)
Theorem handleWallCollision_nonpenetration
    (ball : Ball) (ws we : Vector2D) (d : R) :
  ws <> we ->
  d <= radius ball ->
  d <= Rabs (Vector.dot (candidateNormal ws we) (ballDirectionOf ball ws we)) ->
  pointToLineSegmentDistance (position (handleWallCollision ball ws we d)) ws we
  >= radius ball.
Proof.
  intros Hne Hr Hd.
  rewrite (handleWallCollision_collision ball ws we d Hr). cbn [position].
  apply Rle_ge, resolver_clears_wall; assumption.
Qed.

Lemma exampleWall_normal :
  candidateNormal exampleWallStart exampleWallEnd = mkVector2D 0 1.
Proof.
  unfold candidateNormal. cbv zeta.
  rewrite (normalize_eq _ 20);
    [| lra | unfold Vector.subtract, exampleWallStart, exampleWallEnd; cbn [x y]; ring].
  unfold Vector.subtract, exampleWallStart, exampleWallEnd. cbn [x y].
  f_equal; field.
Qed.

Lemma handleWallCollision_nonpenetration_witness :
  exampleWallStart <> exampleWallEnd
  /\ 4 <= radius exampleBall
  /\ pointToLineSegmentDistance
       (position (handleWallCollision exampleBall exampleWallStart exampleWallEnd 4))
       exampleWallStart exampleWallEnd
     >= radius exampleBall.
Proof.
  assert (H1 : exampleWallStart <> exampleWallEnd).
  { intros E. apply (f_equal x) in E. cbn in E. lra. }
  assert (H2 : 4 <= radius exampleBall) by (cbn [radius exampleBall]; lra).
  assert (H3 : 4 <= Rabs (Vector.dot (candidateNormal exampleWallStart exampleWallEnd)
                            (ballDirectionOf exampleBall exampleWallStart exampleWallEnd))).
  { rewrite exampleWall_normal.
    unfold Vector.dot, ballDirectionOf, Vector.subtract, Vector.multiply, Vector.add,
      exampleBall, exampleWallStart, exampleWallEnd.
    cbn [x y position].
    rewrite Rabs_right; lra. }
  split; [exact H1 | split; [exact H2 |]].
  exact (handleWallCollision_nonpenetration
           exampleBall exampleWallStart exampleWallEnd 4 H1 H2 H3).
Defined.

(** ** The segment distance is the distance to the segment *)

Section ClosestPoint.

Import Vector.

Variables p a b : Vector2D.

Lemma magnitude_to_pointAt (s : R) :
  magnitude (subtract p (pointAt a b s)) = sqrt (squaredDistanceAt p a b s).
Proof.
  unfold magnitude, subtract, pointAt, squaredDistanceAt. cbn [x y].
  f_equal. ring.
Qed.

Lemma squaredDistanceAt_expand (s : R) :
  squaredDistanceAt p a b s
  = squaredDistanceAt p a b 0 - 2 * s * segmentDot p a b
    + s * s * segmentLenSq a b.
Proof.
  unfold squaredDistanceAt, segmentDot, segmentLenSq, dot, subtract.
  cbn [x y]. ring.
Qed.

Lemma pointAt_start : pointAt a b 0 = a.
Proof. symmetry. apply vector_eq; ring. Qed.

Lemma pointAt_end : pointAt a b 1 = b.
Proof. symmetry. apply vector_eq; ring. Qed.

Lemma segmentLenSq_nonneg : 0 <= segmentLenSq a b.
Proof. apply sum_squares_nonneg. Qed.

(** The code's closest point, as a parameter on the segment. *)
Lemma closestPoint_clamped :
  segmentLenSq a b <> 0 ->
  closestPointOf p a b = pointAt a b (clamp01 (projectionParam p a b)).
Proof.
  intros NE.
  unfold closestPointOf, projectionParam, clamp01, segmentDot, segmentLenSq,
    dot, subtract in *.
  cbn [x y] in *. cbv zeta.
  destruct (Req_dec_T _ 0); [contradiction |].
  set (t := _ / _).
  destruct (Rlt_dec t 0) as [L0 | G0].
  - rewrite Rmin_right by lra. rewrite Rmax_left by lra.
    symmetry. apply pointAt_start.
  - destruct (Rgt_dec t 1) as [G1 | L1].
    + rewrite Rmin_left by lra. rewrite Rmax_right by lra.
      symmetry. apply pointAt_end.
    + rewrite Rmin_right by lra. rewrite Rmax_right by lra.
      reflexivity.
Qed.

(** No point of the segment is closer to [p] than the code's closest
    point. *)
Lemma distance_minimal (s : R) :
  0 <= s <= 1 ->
  pointToLineSegmentDistance p a b <= magnitude (subtract p (pointAt a b s)).
Proof.
  intros Hs. rewrite (magnitude_to_pointAt s).
  pose proof segmentLenSq_nonneg as S.
  destruct (Req_dec_T (segmentLenSq a b) 0) as [Z | NE].
  - (* the segment is a point *)
    rewrite distance_degenerate by exact Z.
    rewrite <- pointAt_start at 1. rewrite magnitude_to_pointAt.
    apply sqrt_le_1_alt. rewrite (squaredDistanceAt_expand s), Z.
    assert (segmentDot p a b = 0) as ->; [| lra].
    revert Z. unfold segmentDot, segmentLenSq, dot, subtract. cbn [x y].
    set (C := x b - x a). set (D := y b - y a). intros Z.
    assert (C = 0 /\ D = 0) as [-> ->] by (split; nra). ring.
  - destruct (Rlt_dec (segmentDot p a b) 0) as [Neg | NNeg].
    + rewrite distance_before_start by exact Neg.
      rewrite <- pointAt_start at 1. rewrite magnitude_to_pointAt.
      apply sqrt_le_1_alt. rewrite (squaredDistanceAt_expand s).
      assert (0 <= s * - segmentDot p a b) by (apply Rmult_le_pos; lra).
      assert (0 <= s * s * segmentLenSq a b)
        by (apply Rmult_le_pos; [nra | lra]).
      lra.
    + destruct (Rlt_dec (segmentLenSq a b) (segmentDot p a b)) as [Big | NBig].
      * rewrite distance_beyond_end by exact Big.
        rewrite <- pointAt_end at 1. rewrite magnitude_to_pointAt.
        apply sqrt_le_1_alt.
        rewrite (squaredDistanceAt_expand s), (squaredDistanceAt_expand 1).
        assert (0 <= (1 - s) * (2 * segmentDot p a b - (1 + s) * segmentLenSq a b)).
        { apply Rmult_le_pos; [lra |].
          assert (s * segmentLenSq a b <= 1 * segmentLenSq a b)
            by (apply Rmult_le_compat_r; lra).
          lra. }
        lra.
      * rewrite distance_inside by (exact NE || lra).
        rewrite magnitude_to_pointAt.
        apply sqrt_le_1_alt.
        rewrite (squaredDistanceAt_expand s),
          (squaredDistanceAt_expand (projectionParam p a b)).
        set (t := projectionParam p a b).
        assert (T : t * segmentLenSq a b = segmentDot p a b)
          by (unfold t, projectionParam; field; exact NE).
        rewrite <- T.
        assert (0 <= (s - t) * (s - t) * segmentLenSq a b)
          by (apply Rmult_le_pos; [apply (Rle_0_sqr (s - t)) | lra]).
        clearbody t. lra.
Qed.

(** The distance is attained on the segment. *)
Lemma distance_attained :
  exists t, 0 <= t <= 1 /\
    pointToLineSegmentDistance p a b = magnitude (subtract p (pointAt a b t)).
Proof.
  destruct (closestPoint_on_segment p a b) as [t [Ht E]].
  exists t. split; [exact Ht |].
  rewrite distance_to_closestPoint, E. reflexivity.
Qed.

End ClosestPoint.

Lemma segment_nondegenerate (a b : Vector2D) :
  a <> b -> (x b - x a) * (x b - x a) + (y b - y a) * (y b - y a) <> 0.
Proof.
  intros Hne Z. apply Hne.
  set (u := x b - x a) in *. set (v := y b - y a) in *.
  assert (u = 0 /\ v = 0) as [Hx Hy] by (split; nra).
  unfold u, v in *. destruct a, b; cbn [x y] in *. f_equal; lra.
Qed.

(** That hypothesis in the detector's terms: when the projection of the
    ball centre falls inside the wall, the point-to-segment distance is the
    distance to the wall's line. *)
Lemma distance_is_perpendicular (ball : Ball) (ws we : Vector2D) :
  ws <> we ->
  0 <= segmentDot (position ball) ws we <= segmentLenSq ws we ->
  pointToLineSegmentDistance (position ball) ws we
  = Rabs (Vector.dot (candidateNormal ws we) (ballDirectionOf ball ws we)).
Proof.
  intros Hne Hin.
  pose proof (wall_vector_nonzero ws we Hne) as Hm.
  pose proof (magnitude_sqr
                (mkVector2D (- y (Vector.subtract we ws)) (x (Vector.subtract we ws))))
    as Hs.
  assert (L : segmentLenSq ws we <> 0).
  { unfold segmentLenSq, Vector.dot, Vector.subtract. cbn [x y].
    apply segment_nondegenerate, Hne. }
  rewrite distance_inside by assumption.
  rewrite magnitude_to_pointAt.
  unfold candidateNormal. cbv zeta. unfold Vector.normalize.
  destruct (Req_dec_T _ 0) as [E | _]; [contradiction |].
  set (m := Vector.magnitude _) in *.
  unfold squaredDistanceAt, projectionParam, segmentDot, segmentLenSq,
    Vector.dot, ballDirectionOf, Vector.subtract, Vector.multiply, Vector.add in *.
  cbn [x y] in *.
  set (A := x (position ball) - x ws) in *.
  set (B := y (position ball) - y ws) in *.
  set (C := x we - x ws) in *.
  set (D := y we - y ws) in *.
  replace (- D / m * (x (position ball) - (x ws + x we) * (1 / 2))
           + C / m * (y (position ball) - (y ws + y we) * (1 / 2)))
    with ((C * B - D * A) / m) by (unfold A, B, C, D; field; exact Hm).
  rewrite <- sqrt_Rsqr_abs. f_equal. unfold Rsqr.
  replace ((C * B - D * A) / m * ((C * B - D * A) / m))
    with ((C * B - D * A) * (C * B - D * A) / (m * m)) by (field; exact Hm).
  rewrite Hs.
  replace (- D * - D + C * C) with (C * C + D * D) by ring.
  field. exact L.
Qed.

(** Hence the resolver, given the distance the detector measured to a wall
    of positive length whose closest point is not one of its ends, leaves
    the ball at least [ball.radius] away from that wall. *)
Lemma handleWallCollision_clears_measured_wall (ball : Ball) (ws we : Vector2D) :
  ws <> we ->
  0 <= segmentDot (position ball) ws we <= segmentLenSq ws we ->
  pointToLineSegmentDistance (position ball) ws we <= radius ball ->
  radius ball
  <= pointToLineSegmentDistance
       (position
          (handleWallCollision ball ws we
             (pointToLineSegmentDistance (position ball) ws we)))
       ws we.
Proof.
  intros Hne Hin Hr.
  rewrite (handleWallCollision_collision ball ws we _ Hr). cbn [position].
  apply resolver_clears_wall; [exact Hne |].
  rewrite (distance_is_perpendicular ball ws we Hne Hin). apply Rle_refl.
Qed.

Ltac scenario_values :=
  unfold pointAt, projectionParam, segmentDot, segmentLenSq,
    Vector.dot, Vector.subtract, scenarioStart, scenarioEnd;
  cbn [x y].

(** C8.  [pointToLineSegmentDistance] is the Euclidean distance from the
    point to the closest point of the segment: it is the distance to a point
    of the segment, no point of the segment is closer, and for a segment of
    positive length that point is the projection on the line with its
    parameter clamped to [[0,1]]; for a segment of zero length it is the
    distance to the start; and the two scenarios of the specification
    evaluate to [0] and [10]. *)
Theorem pointToLineSegmentDistance_correct (p a b : Vector2D) :
  (exists t, 0 <= t <= 1 /\
     pointToLineSegmentDistance p a b
     = Vector.magnitude (Vector.subtract p (pointAt a b t)))
  /\ (forall s, 0 <= s <= 1 ->
        pointToLineSegmentDistance p a b
        <= Vector.magnitude (Vector.subtract p (pointAt a b s)))
  /\ (a <> b ->
      pointToLineSegmentDistance p a b
      = Vector.magnitude
          (Vector.subtract p (pointAt a b (clamp01 (projectionParam p a b)))))
  /\ pointToLineSegmentDistance p a a = Vector.magnitude (Vector.subtract p a)
  /\ pointToLineSegmentDistance (mkVector2D 0 0) scenarioStart scenarioEnd = 0
  /\ pointToLineSegmentDistance (mkVector2D 10 0) scenarioStart scenarioEnd = 10.
Proof.
  split; [apply distance_attained |].
  split; [apply distance_minimal |].
  split.
  { intros Hne. rewrite distance_to_closestPoint.
    rewrite closestPoint_clamped by (apply segment_nondegenerate, Hne).
    reflexivity. }
  split.
  { apply distance_degenerate.
    unfold segmentLenSq, Vector.dot, Vector.subtract. cbn [x y]. ring. }
  split.
  - rewrite distance_inside by (scenario_values; lra).
    apply magnitude_eq; [lra |]. scenario_values. field.
  - rewrite distance_inside by (scenario_values; lra).
    apply magnitude_eq; [lra |]. scenario_values. field.
Qed.

Lemma pointToLineSegmentDistance_correct_witness :
  scenarioStart <> scenarioEnd
  /\ 0 <= 1 <= 1
  /\ pointToLineSegmentDistance (mkVector2D 10 0) scenarioStart scenarioEnd
     <= Vector.magnitude
          (Vector.subtract (mkVector2D 10 0) (pointAt scenarioStart scenarioEnd 1))
  /\ pointToLineSegmentDistance (mkVector2D 10 0) scenarioStart scenarioEnd
     = Vector.magnitude
         (Vector.subtract (mkVector2D 10 0)
            (pointAt scenarioStart scenarioEnd
               (clamp01 (projectionParam (mkVector2D 10 0) scenarioStart scenarioEnd)))).
Proof.
  assert (H1 : scenarioStart <> scenarioEnd).
  { intros E. apply (f_equal y) in E. cbn in E. lra. }
  assert (H2 : 0 <= 1 <= 1) by lra.
  destruct (pointToLineSegmentDistance_correct
              (mkVector2D 10 0) scenarioStart scenarioEnd)
    as [_ [Hmin [Hclamp _]]].
  split; [exact H1 | split; [exact H2 | split]].
  - exact (Hmin 1 H2).
  - exact (Hclamp H1).
Defined.

(** ** The scan over the edges *)

Section Scan.

Variable ballPosition : Vector2D.

Lemma scan_firstNearest (edges : list LineSegment) :
  edges <> [] ->
  exists k, firstNearest ballPosition edges k
    /\ fold_left (scanEdge ballPosition) edges (Infinity, None)
       = (Finite (edgeDistance ballPosition (nth k edges noSegment)),
          Some (nth k edges noSegment)).
Proof.
  induction edges as [| e l IH] using rev_ind; [congruence |].
  intros _. rewrite fold_left_app. cbn [fold_left].
  destruct l as [| e0 l0].
  - (* the first edge always replaces Infinity *)
    exists 0%nat. cbn. split; [| reflexivity].
    repeat split.
    + simpl. lia.
    + simpl. intros j Hj. assert (j = 0%nat) as -> by lia. apply Rle_refl.
    + intros j Hj. lia.
  - destruct IH as [k [[Hk [Hmin Hfirst]] E]]; [discriminate |].
    set (l := e0 :: l0) in *. rewrite E. unfold scanEdge. cbn [fst lt_Num].
    fold (edgeDistance ballPosition e).
    destruct (Rlt_dec (edgeDistance ballPosition e) (edgeDistance ballPosition (nth k l noSegment)))
      as [Lt | Ge].
    + exists (length l). unfold firstNearest.
      rewrite nth_middle. split; [| reflexivity]. repeat split.
      * rewrite length_app. change (length [e]) with 1%nat. lia.
      * intros j Hj. rewrite length_app in Hj.
        change (length [e]) with 1%nat in Hj.
        destruct (Nat.eq_dec j (length l)) as [-> | Hne].
        -- rewrite nth_middle. apply Rle_refl.
        -- rewrite app_nth1 by lia.
           apply Rlt_le, (Rlt_le_trans _ _ _ Lt), Hmin. lia.
      * intros j Hj. rewrite app_nth1 by lia.
        apply (Rlt_le_trans _ _ _ Lt), Hmin. lia.
    + exists k. unfold firstNearest.
      rewrite app_nth1 by exact Hk. split; [| reflexivity].
      repeat split.
      * rewrite length_app. lia.
      * intros j Hj. rewrite length_app in Hj.
        change (length [e]) with 1%nat in Hj.
        destruct (Nat.eq_dec j (length l)) as [-> | Hne].
        -- rewrite nth_middle. lra.
        -- rewrite app_nth1 by lia. apply Hmin. lia.
      * intros j Hj. rewrite app_nth1 by lia. apply Hfirst, Hj.
Qed.

End Scan.

(** ** The hexagon and the detector *)

Lemma hexagonEdges_eq (cx cy r rot : R) :
  getHexagonEdges (generateHexagonVertices cx cy r rot)
  = map (hexagonEdge cx cy r rot) (seq 0 6).
Proof. reflexivity. Qed.

Lemma hexagonEdges_nth (cx cy r rot : R) (k : nat) :
  (k < 6)%nat ->
  nth k (map (hexagonEdge cx cy r rot) (seq 0 6)) noSegment
  = hexagonEdge cx cy r rot k.
Proof.
  intros Hk.
  do 6 (destruct k as [| k]; [reflexivity |]). lia.
Qed.

(** What the detector returns: the first nearest edge, its distance, and
    the comparison of that distance with the ball radius. *)
Lemma checkHexagonCollision_scan (p : Vector2D) (br : R) (c : Vector2D) (hr rot : R) :
  exists k, (k < 6)%nat
    /\ (forall j, (j < 6)%nat ->
          hexagonEdgeDistance p c hr rot k <= hexagonEdgeDistance p c hr rot j)
    /\ (forall j, (j < k)%nat ->
          hexagonEdgeDistance p c hr rot k < hexagonEdgeDistance p c hr rot j)
    /\ checkHexagonCollision p br c hr rot
       = mkCollisionResult
           (if Rle_dec (hexagonEdgeDistance p c hr rot k) br then true else false)
           (Finite (hexagonEdgeDistance p c hr rot k))
           (seg_start (hexagonEdge (x c) (y c) hr rot k))
           (seg_end (hexagonEdge (x c) (y c) hr rot k)).
Proof.
  unfold checkHexagonCollision. cbv zeta. rewrite hexagonEdges_eq.
  destruct (scan_firstNearest p (map (hexagonEdge (x c) (y c) hr rot) (seq 0 6)))
    as [k [[Hk [Hmin Hfirst]] E]]; [discriminate |].
  rewrite length_map, length_seq in Hk, Hmin.
  exists k. split; [exact Hk |].
  rewrite E. rewrite hexagonEdges_nth in * by exact Hk.
  split; [| split; [| reflexivity]].
  - intros j Hj. specialize (Hmin j Hj).
    rewrite hexagonEdges_nth in Hmin by exact Hj. exact Hmin.
  - intros j Hj. specialize (Hfirst j Hj).
    rewrite hexagonEdges_nth in Hfirst by lia. exact Hfirst.
Qed.

(** C2.  The detector returns the least of the six point-to-segment
    distances, the end points of the first edge, in vertex order, that
    attains it, and [hasCollision = true] exactly when that least distance is
    at most the ball radius. *)
Theorem checkHexagonCollision_nearest_edge
    (p : Vector2D) (br : R) (c : Vector2D) (hr rot : R) :
  exists k, (k < 6)%nat
    /\ (forall j, (j < 6)%nat ->
          hexagonEdgeDistance p c hr rot k <= hexagonEdgeDistance p c hr rot j)
    /\ (forall j, (j < k)%nat ->
          hexagonEdgeDistance p c hr rot k < hexagonEdgeDistance p c hr rot j)
    /\ distance (checkHexagonCollision p br c hr rot)
       = Finite (hexagonEdgeDistance p c hr rot k)
    /\ wallStart (checkHexagonCollision p br c hr rot)
       = hexagonVertex (x c) (y c) hr rot k
    /\ wallEnd (checkHexagonCollision p br c hr rot)
       = hexagonVertex (x c) (y c) hr rot ((k + 1) mod 6)
    /\ (hasCollision (checkHexagonCollision p br c hr rot) = true
        <-> hexagonEdgeDistance p c hr rot k <= br).
Proof.
  destruct (checkHexagonCollision_scan p br c hr rot)
    as [k [Hk [Hmin [Hfirst E]]]].
  exists k. rewrite E. cbn [distance wallStart wallEnd hasCollision].
  repeat (split; [first [assumption | reflexivity] |]).
  destruct (Rle_dec (hexagonEdgeDistance p c hr rot k) br); split; intros H;
    first [assumption | reflexivity | discriminate | contradiction].
Qed.

(** C7.  The detector never tests containment: when each of the six edges is
    farther than the ball radius from the ball position, it reports no
    collision, wherever the position lies. *)
Theorem checkHexagonCollision_distance_only
    (p : Vector2D) (br : R) (c : Vector2D) (hr rot : R) :
  (forall j, (j < 6)%nat -> hexagonEdgeDistance p c hr rot j > br) ->
  hasCollision (checkHexagonCollision p br c hr rot) = false.
Proof.
  intros Hfar.
  destruct (checkHexagonCollision_scan p br c hr rot) as [k [Hk [_ [_ E]]]].
  rewrite E. cbn [hasCollision]. specialize (Hfar k Hk).
  destruct (Rle_dec (hexagonEdgeDistance p c hr rot k) br); [lra | reflexivity].
Qed.

(** ** Positions to the right of the hexagon *)

Lemma hexagonVertex_x_le (cx cy r rot : R) (i : nat) :
  x (hexagonVertex cx cy r rot i) <= cx + Rabs r.
Proof.
  unfold hexagonVertex. cbv zeta. cbn [x].
  pose proof (COS_bound (hexagonAngle i rot)) as [Lo Hi].
  set (co := cos (hexagonAngle i rot)) in *.
  destruct (Rcase_abs r) as [Neg | Pos].
  - rewrite Rabs_left by exact Neg. nra.
  - rewrite Rabs_right by exact Pos. nra.
Qed.

(** Every edge is at least [x p - (cx + |r|)] away from [p]. *)
Lemma hexagonEdgeDistance_right (p c : Vector2D) (r rot : R) (i : nat) :
  x p - (x c + Rabs r) <= hexagonEdgeDistance p c r rot i.
Proof.
  unfold hexagonEdgeDistance, hexagonEdge. cbn [seg_start seg_end].
  pose proof (distance_ge_halfplane (mkVector2D 1 0) p
                (hexagonVertex (x c) (y c) r rot i)
                (hexagonVertex (x c) (y c) r rot ((i + 1) mod 6))
                (x c + Rabs r)) as H.
  unfold Vector.dot in H. cbn [x y] in H.
  pose proof (hexagonVertex_x_le (x c) (y c) r rot i).
  pose proof (hexagonVertex_x_le (x c) (y c) r rot ((i + 1) mod 6)).
  lra.
Qed.

(** The ray-casting test fails for an edge that lies to the left of the
    point. *)
Lemma rayCrosses_right (p vi vj : Vector2D) :
  x vi <= x p -> x vj <= x p -> rayCrosses p vi vj = false.
Proof.
  intros Hi Hj. unfold rayCrosses. cbv zeta. unfold Rgtb, Rltb.
  destruct (Rgt_dec (y vi) (y p)) as [Gi | Li];
    destruct (Rgt_dec (y vj) (y p)) as [Gj | Lj];
    cbn [eqb negb andb]; try reflexivity.
  - (* y vj <= y p < y vi *)
    destruct (Rlt_dec (x p) _) as [Lt | _]; [| reflexivity].
    exfalso. revert Lt. apply Rle_not_lt.
    set (t := (y vi - y p) / (y vi - y vj)).
    assert (D : y vi - y vj <> 0) by lra.
    assert (T : t * (y vi - y vj) = y vi - y p) by (unfold t; field; exact D).
    assert (T0 : 0 <= t) by nra.
    assert (T1 : t <= 1) by nra.
    replace ((x vj - x vi) * (y p - y vi) / (y vj - y vi) + x vi)
      with ((1 - t) * x vi + t * x vj) by (unfold t; field; lra).
    clearbody t. nra.
  - (* y vi <= y p < y vj *)
    destruct (Rlt_dec (x p) _) as [Lt | _]; [| reflexivity].
    exfalso. revert Lt. apply Rle_not_lt.
    set (t := (y p - y vi) / (y vj - y vi)).
    assert (D : y vj - y vi <> 0) by lra.
    assert (T : t * (y vj - y vi) = y p - y vi) by (unfold t; field; exact D).
    assert (T0 : 0 <= t) by nra.
    assert (T1 : t <= 1) by nra.
    replace ((x vj - x vi) * (y p - y vi) / (y vj - y vi) + x vi)
      with ((1 - t) * x vi + t * x vj) by (unfold t; field; lra).
    clearbody t. nra.
Qed.

(** A point to the right of every vertex is outside for the ray-casting
    test. *)
Lemma isPointInsideHexagon_right (p c : Vector2D) (r rot : R) :
  x c + Rabs r <= x p -> isPointInsideHexagon p c r rot = false.
Proof.
  intros Hp.
  assert (V : forall i, x (hexagonVertex (x c) (y c) r rot i) <= x p).
  { intros i. eapply Rle_trans; [apply hexagonVertex_x_le | exact Hp]. }
  unfold isPointInsideHexagon. cbv zeta.
  unfold generateHexagonVertices.
  cbn [map seq length Nat.sub fold_left rayStep nth].
  rewrite !rayCrosses_right by apply V. reflexivity.
Qed.

(** A position farther to the right of the hexagon than the ball radius is
    returned as it is by [constrainBallInsideHexagon]. *)
Lemma constrainBallInsideHexagon_right
    (p : Vector2D) (br : R) (c : Vector2D) (r rot random1 random2 : R) :
  x c + Rabs r + br < x p ->
  constrainBallInsideHexagon p br c r rot random1 random2 = p.
Proof.
  intros Hp. unfold constrainBallInsideHexagon. cbv zeta.
  assert (N : hasCollision (checkHexagonCollision p br c r rot) = false).
  { destruct (checkHexagonCollision_scan p br c r rot) as [k [_ [_ [_ E]]]].
    rewrite E. cbn [hasCollision].
    pose proof (hexagonEdgeDistance_right p c r rot k).
    destruct (Rle_dec _ br); [lra | reflexivity]. }
  rewrite N. reflexivity.
Qed.

Lemma checkHexagonCollision_distance_only_witness :
  (forall j, (j < 6)%nat ->
     hexagonEdgeDistance escapedPosition canvasCenter 100 0 j > 8)
  /\ isPointInsideHexagon escapedPosition canvasCenter 100 0 = false
  /\ hasCollision (checkHexagonCollision escapedPosition 8 canvasCenter 100 0) = false.
Proof.
  assert (A : Rabs 100 = 100) by (apply Rabs_right; lra).
  assert (H : forall j, (j < 6)%nat ->
                hexagonEdgeDistance escapedPosition canvasCenter 100 0 j > 8).
  { intros j _.
    pose proof (hexagonEdgeDistance_right escapedPosition canvasCenter 100 0 j) as B.
    rewrite A in B. cbn [x escapedPosition canvasCenter] in B. lra. }
  split; [exact H | split].
  - apply isPointInsideHexagon_right. rewrite A.
    cbn [x escapedPosition canvasCenter]. lra.
  - exact (checkHexagonCollision_distance_only
             escapedPosition 8 canvasCenter 100 0 H).
Defined.

(** C6, at a failing input.  The ball centre [(480,300)] is outside the
    hexagon of radius 100 around [(300,300)], whatever the rotation; the
    function returns it unchanged, at distance 180 from the centre and not at
    the safe distance [100 - 8 - 10 = 82]. *)
Theorem constrainBallInsideHexagon_outside_unchanged (rot random1 random2 : R) :
  isPointInsideHexagon escapedPosition canvasCenter 100 rot = false
  /\ constrainBallInsideHexagon escapedPosition 8 canvasCenter 100 rot random1 random2
     = escapedPosition
  /\ Vector.magnitude
       (Vector.subtract
          (constrainBallInsideHexagon escapedPosition 8 canvasCenter 100 rot
             random1 random2)
          canvasCenter)
     = 180
  /\ 100 - 8 - 10 <> 180.
Proof.
  assert (A : Rabs 100 = 100) by (apply Rabs_right; lra).
  assert (E : constrainBallInsideHexagon escapedPosition 8 canvasCenter 100 rot
                random1 random2 = escapedPosition).
  { apply constrainBallInsideHexagon_right. rewrite A.
    cbn [x escapedPosition canvasCenter]. lra. }
  split; [| split; [exact E | split]].
  - apply isPointInsideHexagon_right. rewrite A.
    cbn [x escapedPosition canvasCenter]. lra.
  - rewrite E. apply magnitude_eq; [lra |].
    unfold Vector.subtract, escapedPosition, canvasCenter. cbn [x y]. ring.
  - lra.
Qed.

(** What [constrainBallInsideHexagon] does on the two other paths: without
    a reported collision the position is returned as it is; with one, and a
    position that is not the centre, the result is the point at signed
    distance [hexagonRadius - ballRadius - 10] from the centre along the
    direction from the centre to the position. *)
Lemma constrainBallInsideHexagon_no_collision
    (p : Vector2D) (br : R) (c : Vector2D) (r rot random1 random2 : R) :
  hasCollision (checkHexagonCollision p br c r rot) = false ->
  constrainBallInsideHexagon p br c r rot random1 random2 = p.
Proof.
  intros N. unfold constrainBallInsideHexagon. cbv zeta. rewrite N. reflexivity.
Qed.

Lemma constrainBallInsideHexagon_collision
    (p : Vector2D) (br : R) (c : Vector2D) (r rot random1 random2 : R) :
  hasCollision (checkHexagonCollision p br c r rot) = true ->
  Vector.magnitude (Vector.subtract c p) <> 0 ->
  constrainBallInsideHexagon p br c r rot random1 random2
  = Vector.add c
      (Vector.multiply (Vector.normalize (Vector.subtract p c)) (r - br - 10))
  /\ Vector.magnitude
       (Vector.subtract (constrainBallInsideHexagon p br c r rot random1 random2) c)
     = Rabs (r - br - 10).
Proof.
  intros Y NZ.
  assert (M : Vector.magnitude (Vector.subtract p c)
              = Vector.magnitude (Vector.subtract c p)).
  { unfold Vector.magnitude, Vector.subtract. cbn [x y]. f_equal. ring. }
  assert (E : constrainBallInsideHexagon p br c r rot random1 random2
              = Vector.add c
                  (Vector.multiply (Vector.normalize (Vector.subtract p c))
                                   (r - br - 10))).
  { unfold constrainBallInsideHexagon. cbv zeta. rewrite Y. cbn [negb].
    destruct (Req_dec_T _ 0) as [Z | _]; [contradiction |].
    unfold Vector.normalize. rewrite M.
    destruct (Req_dec_T _ 0) as [Z | _]; [contradiction |].
    unfold Vector.add, Vector.multiply, Vector.subtract. cbn [x y].
    f_equal; field; exact NZ. }
  split; [exact E |]. rewrite E.
  pose proof (normalize_unit (Vector.subtract p c)) as U.
  rewrite M in U. specialize (U NZ).
  set (u := Vector.normalize (Vector.subtract p c)) in *.
  unfold Vector.magnitude, Vector.subtract, Vector.add, Vector.multiply.
  cbn [x y].
  replace ((x c + x u * (r - br - 10) - x c) * (x c + x u * (r - br - 10) - x c)
           + (y c + y u * (r - br - 10) - y c) * (y c + y u * (r - br - 10) - y c))
    with ((x u * x u + y u * y u) * Rsqr (r - br - 10)) by (unfold Rsqr; ring).
  rewrite U, Rmult_1_l. apply sqrt_Rsqr_abs.
Qed.

(** ** The integrator *)

(** C3.  One tick of the integrator: gravity [(0, G) * deltaTime] with
    [G = 500 > 0] is added to the velocity, the sum is multiplied by the
    friction coefficient [0.98] (once, with no [deltaTime] in the factor), the
    result is replaced by [(0,0)] when its magnitude is below [0.1]; the
    position advances by the final velocity times [deltaTime]; the radius is
    kept. *)
Theorem updateBallPhysics_step (ball : Ball) (deltaTime : R) :
  let G := 500 in
  let accelerated :=
    Vector.add (velocity ball) (Vector.multiply (mkVector2D 0 G) deltaTime) in
  let slowed := Vector.multiply accelerated (98 / 100) in
  let final :=
    if Rlt_dec (Vector.magnitude slowed) (1 / 10) then mkVector2D 0 0 else slowed in
  0 < G
  /\ slowed = mkVector2D (x (velocity ball) * (98 / 100))
                         ((y (velocity ball) + G * deltaTime) * (98 / 100))
  /\ velocity (updateBallPhysics ball deltaTime) = final
  /\ position (updateBallPhysics ball deltaTime)
     = Vector.add (position ball) (Vector.multiply final deltaTime)
  /\ radius (updateBallPhysics ball deltaTime) = radius ball.
Proof.
  cbv zeta. split; [lra |]. split.
  - unfold Vector.add, Vector.multiply. cbn [x y]. f_equal; ring.
  - repeat split.
Qed.

(** ** The vertices *)

Lemma polarPoint_distance (center : Vector2D) (radius angle : R) :
  Vector.magnitude (Vector.subtract (polarPoint center radius angle) center)
  = Rabs radius.
Proof.
  unfold Vector.magnitude, Vector.subtract, polarPoint. cbn [x y].
  replace ((x center + radius * cos angle - x center)
           * (x center + radius * cos angle - x center)
           + (y center + radius * sin angle - y center)
             * (y center + radius * sin angle - y center))
    with (Rsqr radius * (Rsqr (sin angle) + Rsqr (cos angle)))
    by (unfold Rsqr; ring).
  rewrite sin2_cos2, Rmult_1_r. apply sqrt_Rsqr_abs.
Qed.

(** Turning a vertex about the centre by [angle] adds [angle] to its
    angle. *)
Lemma polarPoint_rotate (center : Vector2D) (radius angle turn : R) :
  Vector.add center
    (Vector.rotate (Vector.subtract (polarPoint center radius angle) center) turn)
  = polarPoint center radius (angle + turn).
Proof.
  unfold Vector.add, Vector.rotate, Vector.subtract, polarPoint. cbv zeta.
  cbn [x y]. rewrite cos_plus, sin_plus. f_equal; ring.
Qed.

Lemma hexagonVertex_polar (cx cy r rot : R) (i : nat) :
  hexagonVertex cx cy r rot i
  = polarPoint (mkVector2D cx cy) r (INR i * (PI / 3) + rot).
Proof.
  unfold hexagonVertex, hexagonAngle, polarPoint. cbv zeta. cbn [x y].
  rewrite (Rmult_comm (PI / 3) (INR i)). reflexivity.
Qed.

(** C9.  [generateHexagonVertices] returns six points, in ascending order of
    [i] the points at angle [i * (PI / 3) + rotation] and distance [radius]
    from the centre; each is at Euclidean distance [|radius|] of the centre
    ([radius] itself for a radius that is not negative), and each is the
    previous one turned by [PI / 3], 60 degrees, about the centre. *)
Theorem generateHexagonVertices_regular (cx cy r rot : R) :
  let center := mkVector2D cx cy in
  let vertices := generateHexagonVertices cx cy r rot in
  length vertices = 6%nat
  /\ vertices
     = map (fun i => polarPoint center r (INR i * (PI / 3) + rot))
           [0; 1; 2; 3; 4; 5]%nat
  /\ Forall (fun v => Vector.magnitude (Vector.subtract v center) = Rabs r)
            vertices
  /\ (0 <= r ->
      Forall (fun v => Vector.magnitude (Vector.subtract v center) = r) vertices)
  /\ (forall i, (i < 5)%nat ->
        nth (S i) vertices origin
        = Vector.add center
            (Vector.rotate (Vector.subtract (nth i vertices origin) center)
                           (PI / 3))).
Proof.
  cbv zeta.
  assert (E : generateHexagonVertices cx cy r rot
              = map (fun i => polarPoint (mkVector2D cx cy) r (INR i * (PI / 3) + rot))
                    [0; 1; 2; 3; 4; 5]%nat).
  { unfold generateHexagonVertices. change (seq 0 6) with [0; 1; 2; 3; 4; 5]%nat.
    apply map_ext. intros i. apply hexagonVertex_polar. }
  assert (F : Forall (fun v => Vector.magnitude (Vector.subtract v (mkVector2D cx cy))
                               = Rabs r)
                     (generateHexagonVertices cx cy r rot)).
  { rewrite E. apply Forall_map, Forall_forall. intros i _.
    apply polarPoint_distance. }
  split; [reflexivity |]. split; [exact E |]. split; [exact F |]. split.
  - intros Hr. rewrite (Rabs_right r) in F by (apply Rle_ge, Hr). exact F.
  - intros i Hi. rewrite E.
    do 5 (destruct i as [| i];
          [cbn [map nth]; rewrite polarPoint_rotate; f_equal;
           rewrite ?S_INR; cbn [INR]; ring |]).
    lia.
Qed.

Lemma generateHexagonVertices_regular_witness :
  0 <= 100
  /\ Forall (fun v => Vector.magnitude (Vector.subtract v canvasCenter) = 100)
            (generateHexagonVertices 300 300 100 0)
  /\ (1 < 5)%nat
  /\ nth 2 (generateHexagonVertices 300 300 100 0) origin
     = Vector.add canvasCenter
         (Vector.rotate
            (Vector.subtract (nth 1 (generateHexagonVertices 300 300 100 0) origin)
                             canvasCenter)
            (PI / 3)).
Proof.
  assert (H1 : 0 <= 100) by lra.
  assert (H2 : (1 < 5)%nat) by lia.
  destruct (generateHexagonVertices_regular 300 300 100 0)
    as [_ [_ [_ [Hd Hr]]]].
  split; [exact H1 | split; [exact (Hd H1) | split; [exact H2 | exact (Hr 1%nat H2)]]].
Defined.

(** * Further properties of the vector operations *)

Lemma magnitude_zero_vector : Vector.magnitude (mkVector2D 0 0) = 0.
Proof. apply magnitude_zero_iff. split; reflexivity. Qed.

Lemma magnitude_normalize (v : Vector2D) :
  Vector.magnitude v <> 0 -> Vector.magnitude (Vector.normalize v) = 1.
Proof.
  intros Hm. unfold Vector.magnitude at 1.
  rewrite (normalize_unit v Hm). apply sqrt_1.
Qed.

(** X1.  [normalize] either meets the zero vector and returns it, or returns the
    vector of length 1 that, scaled by the length of its argument, gives the
    argument back. *)
Theorem normalize_direction (v : Vector2D) :
  (v = mkVector2D 0 0 /\ Vector.normalize v = mkVector2D 0 0)
  \/ (Vector.magnitude (Vector.normalize v) = 1
      /\ Vector.multiply (Vector.normalize v) (Vector.magnitude v) = v).
Proof.
  destruct (Req_dec_T (Vector.magnitude v) 0) as [Z | NZ].
  - left. split; [| apply normalize_zero, Z].
    apply magnitude_zero_iff in Z. destruct Z as [Zx Zy].
    apply vector_eq; assumption.
  - right. split; [apply magnitude_normalize, NZ |].
    unfold Vector.normalize.
    destruct (Req_dec_T (Vector.magnitude v) 0); [contradiction |].
    unfold Vector.multiply. cbn [x y]. symmetry.
    apply vector_eq; field; exact NZ.
Qed.

(** The components of a reflected vector along and across the normalised
    normal. *)
Lemma reflect_components (v n : Vector2D) :
  let u := Vector.normalize n in
  Vector.dot (Vector.reflect v n) u = - Vector.dot v u
  /\ Vector.dot (Vector.reflect v n) (mkVector2D (- y u) (x u))
     = Vector.dot v (mkVector2D (- y u) (x u)).
Proof.
  cbv zeta. unfold Vector.reflect. cbv zeta.
  destruct (normalize_cases n) as [Z | U].
  - rewrite Z. unfold Vector.dot, Vector.subtract, Vector.multiply. cbn [x y].
    split; ring.
  - set (u := Vector.normalize n) in *.
    unfold Vector.dot, Vector.subtract, Vector.multiply. cbn [x y]. split.
    + replace ((x v - x u * (2 * (x v * x u + y v * y u))) * x u
               + (y v - y u * (2 * (x v * x u + y v * y u))) * y u)
        with ((x v * x u + y v * y u)
              * (1 - 2 * (x u * x u + y u * y u))) by ring.
      rewrite U. ring.
    + ring.
Qed.

Lemma reflect_involutive (v n : Vector2D) :
  Vector.reflect (Vector.reflect v n) n = v.
Proof.
  pose proof (reflect_components v n) as [Hn _]. cbv zeta in Hn.
  unfold Vector.reflect at 1. cbv zeta. rewrite Hn.
  unfold Vector.reflect. cbv zeta.
  unfold Vector.subtract, Vector.multiply. cbn [x y].
  symmetry. apply vector_eq; ring.
Qed.

Lemma reflect_zero_normal (v : Vector2D) :
  Vector.reflect v (mkVector2D 0 0) = v.
Proof.
  unfold Vector.reflect. cbv zeta.
  rewrite (normalize_zero (mkVector2D 0 0) magnitude_zero_vector).
  unfold Vector.subtract, Vector.multiply. cbn [x y].
  symmetry. apply vector_eq; ring.
Qed.

(** X2.  [reflect] keeps the length of the incident vector, reverses its
    component along the normalised normal, keeps its component across it, and
    undoes itself; this holds for every normal, the zero normal included
    (its normalisation is zero and the vector is returned as it is). *)
Theorem reflect_mirror (v n : Vector2D) :
  let u := Vector.normalize n in
  Vector.magnitude (Vector.reflect v n) = Vector.magnitude v
  /\ Vector.dot (Vector.reflect v n) u = - Vector.dot v u
  /\ Vector.dot (Vector.reflect v n) (mkVector2D (- y u) (x u))
     = Vector.dot v (mkVector2D (- y u) (x u))
  /\ Vector.reflect (Vector.reflect v n) n = v
  /\ Vector.reflect v (mkVector2D 0 0) = v.
Proof.
  cbv zeta. pose proof (reflect_components v n) as [Hn Ht]. cbv zeta in Hn, Ht.
  split; [apply reflect_magnitude |].
  split; [exact Hn |]. split; [exact Ht |].
  split; [apply reflect_involutive | apply reflect_zero_normal].
Qed.

Lemma normalize_scale (n : Vector2D) (k : R) :
  k <> 0 ->
  (0 < k /\ Vector.normalize (Vector.multiply n k) = Vector.normalize n)
  \/ (k < 0
      /\ Vector.normalize (Vector.multiply n k)
         = Vector.multiply (Vector.normalize n) (-1)).
Proof.
  intros Hk.
  assert (M : Vector.magnitude (Vector.multiply n k)
              = Rabs k * Vector.magnitude n).
  { unfold Vector.magnitude, Vector.multiply. cbn [x y].
    replace (x n * k * (x n * k) + y n * k * (y n * k))
      with (Rsqr k * (x n * x n + y n * y n)) by (unfold Rsqr; ring).
    rewrite sqrt_mult_alt by apply Rle_0_sqr.
    rewrite sqrt_Rsqr_abs. reflexivity. }
  assert (Ak : Rabs k <> 0) by (apply Rabs_no_R0, Hk).
  unfold Vector.normalize. rewrite M.
  destruct (Req_dec_T (Vector.magnitude n) 0) as [Z | NZ].
  - rewrite Z, Rmult_0_r.
    destruct (Req_dec_T 0 0) as [_ | N]; [| contradiction].
    destruct (Rdichotomy _ _ Hk) as [Neg | Pos].
    + right. split; [exact Neg |]. unfold Vector.multiply. cbn [x y].
      f_equal; ring.
    + left. split; [exact Pos | reflexivity].
  - destruct (Req_dec_T (Rabs k * Vector.magnitude n) 0) as [Z | _].
    { exfalso. apply Rmult_integral in Z. tauto. }
    destruct (Rdichotomy _ _ Hk) as [Neg | Pos].
    + right. split; [exact Neg |]. rewrite (Rabs_left k Neg).
      unfold Vector.multiply. cbn [x y].
      f_equal; field; split; lra.
    + left. split; [exact Pos |]. rewrite (Rabs_right k) by lra.
      unfold Vector.multiply. cbn [x y].
      f_equal; field; split; lra.
Qed.

(** X3.  Only the line spanned by the normal matters to [reflect]: scaling
    the normal by any non-zero factor, negative ones included, gives the
    same reflection. *)
Theorem reflect_scale_normal (v n : Vector2D) (k : R) :
  k <> 0 -> Vector.reflect v (Vector.multiply n k) = Vector.reflect v n.
Proof.
  intros Hk. unfold Vector.reflect. cbv zeta.
  destruct (normalize_scale n k Hk) as [[_ E] | [_ E]]; rewrite E.
  - reflexivity.
  - unfold Vector.subtract, Vector.multiply, Vector.dot. cbn [x y].
    f_equal; ring.
Qed.

Lemma reflect_scale_normal_witness :
  -2 <> 0
  /\ Vector.reflect (mkVector2D 1 2) (Vector.multiply (mkVector2D 3 4) (-2))
     = Vector.reflect (mkVector2D 1 2) (mkVector2D 3 4).
Proof.
  assert (H : -2 <> 0) by lra.
  split; [exact H |].
  exact (reflect_scale_normal (mkVector2D 1 2) (mkVector2D 3 4) (-2) H).
Defined.

(** X4.  [rotate] keeps lengths and dot products, turning by [0] changes
    nothing, and two turns compose into the turn by the sum of the
    angles. *)
Theorem rotate_isometry (u v : Vector2D) (a b : R) :
  Vector.magnitude (Vector.rotate v a) = Vector.magnitude v
  /\ Vector.dot (Vector.rotate u a) (Vector.rotate v a) = Vector.dot u v
  /\ Vector.rotate v 0 = v
  /\ Vector.rotate (Vector.rotate v a) b = Vector.rotate v (a + b).
Proof.
  pose proof (sin2_cos2 a) as SC. unfold Rsqr in SC.
  repeat split.
  - unfold Vector.magnitude, Vector.rotate. cbv zeta. cbn [x y]. f_equal.
    replace ((x v * cos a - y v * sin a) * (x v * cos a - y v * sin a)
             + (x v * sin a + y v * cos a) * (x v * sin a + y v * cos a))
      with ((x v * x v + y v * y v) * (sin a * sin a + cos a * cos a)) by ring.
    rewrite SC. ring.
  - unfold Vector.dot, Vector.rotate. cbv zeta. cbn [x y].
    replace ((x u * cos a - y u * sin a) * (x v * cos a - y v * sin a)
             + (x u * sin a + y u * cos a) * (x v * sin a + y v * cos a))
      with ((x u * x v + y u * y v) * (sin a * sin a + cos a * cos a)) by ring.
    rewrite SC. ring.
  - unfold Vector.rotate. cbv zeta. rewrite cos_0, sin_0.
    symmetry. apply vector_eq; ring.
  - unfold Vector.rotate. cbv zeta. cbn [x y]. rewrite cos_plus, sin_plus.
    f_equal; ring.
Qed.

(** The triangle inequality for [magnitude]. *)
Lemma magnitude_add_le (a b : Vector2D) :
  Vector.magnitude (Vector.add a b) <= Vector.magnitude a + Vector.magnitude b.
Proof.
  pose proof (magnitude_nonneg a) as Ha. pose proof (magnitude_nonneg b) as Hb.
  apply Rsqr_incr_0_var; [| lra].
  unfold Rsqr.
  pose proof (magnitude_sqr (Vector.add a b)) as Sab.
  pose proof (magnitude_sqr a) as Sa. pose proof (magnitude_sqr b) as Sb.
  rewrite Sab. unfold Vector.add. cbn [x y].
  assert (CS : x a * x b + y a * y b <= Vector.magnitude a * Vector.magnitude b).
  { apply Rsqr_incr_0_var; [| apply Rmult_le_pos; assumption].
    unfold Rsqr.
    replace (Vector.magnitude a * Vector.magnitude b
             * (Vector.magnitude a * Vector.magnitude b))
      with ((Vector.magnitude a * Vector.magnitude a)
            * (Vector.magnitude b * Vector.magnitude b)) by ring.
    rewrite Sa, Sb.
    pose proof (Rle_0_sqr (x a * y b - y a * x b)) as Q. unfold Rsqr in Q.
    nra. }
  nra.
Qed.

Lemma magnitude_subtract_sym (a b : Vector2D) :
  Vector.magnitude (Vector.subtract a b) = Vector.magnitude (Vector.subtract b a).
Proof.
  unfold Vector.magnitude, Vector.subtract. cbn [x y]. f_equal. ring.
Qed.

(** * Further properties of the segment distance *)

Lemma pointAt_reverse (a b : Vector2D) (t : R) :
  pointAt b a t = pointAt a b (1 - t).
Proof. unfold pointAt. f_equal; ring. Qed.

Lemma distance_le_reversed (p a b : Vector2D) :
  pointToLineSegmentDistance p a b <= pointToLineSegmentDistance p b a.
Proof.
  destruct (distance_attained p b a) as [t [Ht E]]. rewrite E.
  rewrite pointAt_reverse. apply distance_minimal. lra.
Qed.

(** X5.  The distance does not depend on the direction in which the segment is
    given. *)
Theorem pointToLineSegmentDistance_symmetric (p a b : Vector2D) :
  pointToLineSegmentDistance p a b = pointToLineSegmentDistance p b a.
Proof. apply Rle_antisym; apply distance_le_reversed. Qed.

Lemma distance_nonneg (p a b : Vector2D) :
  0 <= pointToLineSegmentDistance p a b.
Proof. rewrite distance_to_closestPoint. apply magnitude_nonneg. Qed.

Lemma distance_at_start (a b : Vector2D) :
  pointToLineSegmentDistance a a b = 0.
Proof.
  apply Rle_antisym; [| apply distance_nonneg].
  eapply Rle_trans; [apply (distance_minimal a a b 0); lra |].
  rewrite pointAt_start. apply Req_le, magnitude_zero_iff.
  unfold Vector.subtract. cbn [x y]. split; ring.
Qed.

(** X6.  The distance is zero exactly for the points of the segment, and it is
    never negative nor larger than the distance to either end. *)
Theorem pointToLineSegmentDistance_zero_iff (p a b : Vector2D) :
  (pointToLineSegmentDistance p a b = 0
   <-> exists t, 0 <= t <= 1 /\ p = pointAt a b t)
  /\ 0 <= pointToLineSegmentDistance p a b
  /\ pointToLineSegmentDistance p a b <= Vector.magnitude (Vector.subtract p a)
  /\ pointToLineSegmentDistance p a b <= Vector.magnitude (Vector.subtract p b).
Proof.
  split; [split |].
  - intros Z. destruct (distance_attained p a b) as [t [Ht E]].
    exists t. split; [exact Ht |]. rewrite Z in E. symmetry in E.
    apply magnitude_zero_iff in E. unfold Vector.subtract in E. cbn [x y] in E.
    destruct E as [Ex Ey].
    destruct p as [px py]. unfold pointAt in *. cbn [x y] in *.
    f_equal; lra.
  - intros [t [Ht E]]. apply Rle_antisym; [| apply distance_nonneg].
    eapply Rle_trans; [apply (distance_minimal p a b t Ht) |].
    rewrite <- E. apply Req_le. apply magnitude_zero_iff.
    unfold Vector.subtract. cbn [x y]. split; ring.
  - split; [apply distance_nonneg |]. split.
    + rewrite <- (pointAt_start a b) at 2. apply distance_minimal. lra.
    + rewrite <- (pointAt_end a b) at 2. apply distance_minimal. lra.
Qed.

(** X7.  Moving the point by some length changes its distance to the segment by
    at most that length. *)
Theorem pointToLineSegmentDistance_lipschitz (p q a b : Vector2D) :
  Rabs (pointToLineSegmentDistance p a b - pointToLineSegmentDistance q a b)
  <= Vector.magnitude (Vector.subtract p q).
Proof.
  assert (H : forall u v,
             pointToLineSegmentDistance u a b
             <= pointToLineSegmentDistance v a b
                + Vector.magnitude (Vector.subtract u v)).
  { intros u v. destruct (distance_attained v a b) as [t [Ht E]]. rewrite E.
    eapply Rle_trans; [apply (distance_minimal u a b t Ht) |].
    replace (Vector.subtract u (pointAt a b t))
      with (Vector.add (Vector.subtract v (pointAt a b t)) (Vector.subtract u v)).
    - apply magnitude_add_le.
    - unfold Vector.add, Vector.subtract. cbn [x y]. f_equal; ring. }
  pose proof (H p q) as H1. pose proof (H q p) as H2.
  rewrite (magnitude_subtract_sym q p) in H2.
  apply Rabs_le. lra.
Qed.

(** * Further properties of the hexagon *)

Lemma getHexagonEdges_nth (vertices : list HexagonVertex) (i : nat) :
  (i < length vertices)%nat ->
  nth i (getHexagonEdges vertices) noSegment
  = mkLineSegment (nth i vertices origin)
                  (nth ((i + 1) mod length vertices) vertices origin).
Proof.
  intros Hi. unfold getHexagonEdges.
  set (f := fun j : nat => _).
  rewrite (nth_indep _ noSegment (f 0%nat))
    by (rewrite length_map, length_seq; exact Hi).
  rewrite map_nth, seq_nth by exact Hi. cbn [Nat.add]. unfold f.
  destruct (nth i vertices origin), (nth ((i + 1) mod length vertices) vertices origin).
  reflexivity.
Qed.

(** X8.  [getHexagonEdges] returns one edge per vertex, none for no vertex; edge
    [i] starts at vertex [i] and ends where edge [(i + 1) mod n] starts, so
    the edges form a closed chain, for any list of vertices. *)
Theorem getHexagonEdges_closed_chain (vertices : list HexagonVertex) :
  length (getHexagonEdges vertices) = length vertices
  /\ getHexagonEdges [] = []
  /\ forall i, (i < length vertices)%nat ->
       seg_start (nth i (getHexagonEdges vertices) noSegment)
       = nth i vertices origin
       /\ seg_end (nth i (getHexagonEdges vertices) noSegment)
          = seg_start (nth ((i + 1) mod length vertices)
                           (getHexagonEdges vertices) noSegment).
Proof.
  split.
  { unfold getHexagonEdges. rewrite length_map, length_seq. reflexivity. }
  split; [reflexivity |].
  intros i Hi.
  assert (Hn : ((i + 1) mod length vertices < length vertices)%nat)
    by (apply Nat.mod_upper_bound; lia).
  rewrite (getHexagonEdges_nth vertices i Hi).
  rewrite (getHexagonEdges_nth vertices _ Hn).
  cbn [seg_start seg_end]. split; reflexivity.
Qed.

Lemma getHexagonEdges_closed_chain_witness :
  (2 < length [mkVector2D 0 0; mkVector2D 4 0; mkVector2D 0 3])%nat
  /\ seg_end (nth 2 (getHexagonEdges [mkVector2D 0 0; mkVector2D 4 0; mkVector2D 0 3])
                  noSegment)
     = seg_start (nth ((2 + 1) mod 3)
                      (getHexagonEdges [mkVector2D 0 0; mkVector2D 4 0; mkVector2D 0 3])
                      noSegment).
Proof.
  assert (H : (2 < length [mkVector2D 0 0; mkVector2D 4 0; mkVector2D 0 3])%nat)
    by (cbn [length]; lia).
  split; [exact H |].
  exact (proj2 (proj2 (proj2 (getHexagonEdges_closed_chain
                                [mkVector2D 0 0; mkVector2D 4 0; mkVector2D 0 3]))
                      2%nat H)).
Defined.

Lemma sqrt3_sqr : sqrt 3 * sqrt 3 = 3.
Proof. apply sqrt_sqrt. lra. Qed.

Lemma sqrt3_pos : 0 < sqrt 3.
Proof. apply sqrt_lt_R0. lra. Qed.

(** A turn by 60 degrees. *)
Lemma cos_shift60 (u : R) : cos (u + PI / 3) = cos u / 2 - sin u * sqrt 3 / 2.
Proof. rewrite cos_plus, cos_PI3, sin_PI3. field. Qed.

Lemma sin_shift60 (u : R) : sin (u + PI / 3) = sin u / 2 + cos u * sqrt 3 / 2.
Proof. rewrite sin_plus, cos_PI3, sin_PI3. field. Qed.

Lemma hexagonAngle_S (i : nat) (rot : R) :
  hexagonAngle (S i) rot = hexagonAngle i rot + PI / 3.
Proof. unfold hexagonAngle. rewrite S_INR. ring. Qed.

(** The end of edge [i] is the vertex at the angle of vertex [i] plus 60
    degrees, also for the edge that closes the hexagon. *)
Lemma hexagonVertex_next (cx cy r rot : R) (i : nat) :
  (i < 6)%nat ->
  hexagonVertex cx cy r rot ((i + 1) mod 6)
  = polarPoint (mkVector2D cx cy) r (hexagonAngle i rot + PI / 3).
Proof.
  intros Hi. unfold hexagonVertex, polarPoint. cbv zeta. cbn [x y].
  destruct (Nat.eq_dec i 5) as [-> | Hne].
  - change ((5 + 1) mod 6)%nat with 0%nat.
    unfold hexagonAngle. cbn [INR].
    replace (PI / 3 * (1 + 1 + 1 + 1 + 1) + rot + PI / 3) with (rot + 2 * PI) by field.
    replace (PI / 3 * 0 + rot) with rot by ring.
    rewrite cos_plus, sin_plus, cos_2PI, sin_2PI.
    f_equal; ring.
  - rewrite Nat.mod_small by lia.
    replace (i + 1)%nat with (S i) by lia.
    rewrite hexagonAngle_S. reflexivity.
Qed.

Lemma hexagonEdge_ends (cx cy r rot : R) (i : nat) :
  (i < 6)%nat ->
  seg_start (hexagonEdge cx cy r rot i)
  = polarPoint (mkVector2D cx cy) r (hexagonAngle i rot)
  /\ seg_end (hexagonEdge cx cy r rot i)
     = polarPoint (mkVector2D cx cy) r (hexagonAngle i rot + PI / 3).
Proof.
  intros Hi. unfold hexagonEdge. cbn [seg_start seg_end].
  split; [reflexivity | apply hexagonVertex_next, Hi].
Qed.

Lemma hexagonEdge_span (cx cy r rot : R) (i : nat) :
  (i < 6)%nat ->
  Vector.magnitude
    (Vector.subtract (seg_end (hexagonEdge cx cy r rot i))
                     (seg_start (hexagonEdge cx cy r rot i)))
  = Rabs r.
Proof.
  intros Hi. destruct (hexagonEdge_ends cx cy r rot i Hi) as [-> ->].
  unfold Vector.magnitude, Vector.subtract, polarPoint. cbn [x y].
  rewrite cos_shift60, sin_shift60.
  pose proof (sin2_cos2 (hexagonAngle i rot)) as SC. unfold Rsqr in SC.
  pose proof sqrt3_sqr as Q.
  set (co := cos (hexagonAngle i rot)) in *.
  set (si := sin (hexagonAngle i rot)) in *.
  set (q := sqrt 3) in *.
  rewrite <- sqrt_Rsqr_abs. f_equal. unfold Rsqr.
  replace ((cx + r * (co / 2 - si * q / 2) - (cx + r * co))
           * (cx + r * (co / 2 - si * q / 2) - (cx + r * co))
           + (cy + r * (si / 2 + co * q / 2) - (cy + r * si))
             * (cy + r * (si / 2 + co * q / 2) - (cy + r * si)))
    with (r * r * ((si * si + co * co) * (1 / 4 + q * q / 4))) by field.
  rewrite SC, Q. field.
Qed.

Lemma hexagonEdge_nondegenerate (cx cy r rot : R) (i : nat) :
  (i < 6)%nat -> r <> 0 ->
  seg_start (hexagonEdge cx cy r rot i) <> seg_end (hexagonEdge cx cy r rot i).
Proof.
  intros Hi Hr E. pose proof (hexagonEdge_span cx cy r rot i Hi) as L.
  rewrite E in L.
  assert (Z : Vector.magnitude
                (Vector.subtract (seg_end (hexagonEdge cx cy r rot i))
                                 (seg_end (hexagonEdge cx cy r rot i))) = 0).
  { apply magnitude_zero_iff. unfold Vector.subtract. cbn [x y]. split; ring. }
  rewrite Z in L. symmetry in L. revert L. apply Rabs_no_R0, Hr.
Qed.

(** X9.  Each of the six edges is as long as the radius, so the vertices form a
    regular hexagon, and no edge shrinks to a point unless the radius is
    0. *)
Theorem hexagonEdge_length (cx cy r rot : R) (i : nat) :
  (i < 6)%nat ->
  Vector.magnitude
    (Vector.subtract (seg_end (hexagonEdge cx cy r rot i))
                     (seg_start (hexagonEdge cx cy r rot i)))
  = Rabs r
  /\ (r <> 0 ->
      seg_start (hexagonEdge cx cy r rot i) <> seg_end (hexagonEdge cx cy r rot i)).
Proof.
  intros Hi. split.
  - apply hexagonEdge_span, Hi.
  - apply hexagonEdge_nondegenerate, Hi.
Qed.

Lemma hexagonEdge_length_witness :
  (5 < 6)%nat
  /\ Vector.magnitude
       (Vector.subtract (seg_end (hexagonEdge 300 300 200 0 5))
                        (seg_start (hexagonEdge 300 300 200 0 5)))
     = Rabs 200.
Proof.
  assert (H : (5 < 6)%nat) by lia.
  split; [exact H | exact (proj1 (hexagonEdge_length 300 300 200 0 5 H))].
Defined.

(** A segment whose ends lie in the disc of radius [rho] about [c] stays at
    least [|p - c| - rho] away from [p]. *)
Lemma distance_ge_outside_disc (p a b c : Vector2D) (rho : R) :
  Vector.magnitude (Vector.subtract a c) <= rho ->
  Vector.magnitude (Vector.subtract b c) <= rho ->
  Vector.magnitude (Vector.subtract p c) - rho
  <= pointToLineSegmentDistance p a b.
Proof.
  intros Ha Hb. destruct (distance_attained p a b) as [t [Ht E]]. rewrite E.
  set (s := pointAt a b t).
  assert (Hs : Vector.magnitude (Vector.subtract s c) <= rho).
  { replace (Vector.subtract s c)
      with (Vector.add (Vector.multiply (Vector.subtract a c) (1 - t))
                       (Vector.multiply (Vector.subtract b c) t)).
    - eapply Rle_trans; [apply magnitude_add_le |].
      rewrite !magnitude_multiply by lra.
      pose proof (magnitude_nonneg (Vector.subtract a c)).
      pose proof (magnitude_nonneg (Vector.subtract b c)).
      nra.
    - unfold s, pointAt, Vector.add, Vector.multiply, Vector.subtract.
      cbn [x y]. f_equal; ring. }
  assert (T : Vector.magnitude (Vector.subtract p c)
              <= Vector.magnitude (Vector.subtract s c)
                 + Vector.magnitude (Vector.subtract p s)).
  { replace (Vector.subtract p c)
      with (Vector.add (Vector.subtract s c) (Vector.subtract p s)).
    - apply magnitude_add_le.
    - unfold Vector.add, Vector.subtract. cbn [x y]. f_equal; ring. }
  lra.
Qed.

Lemma hexagonEdgeDistance_outside (p c : Vector2D) (r rot : R) (i : nat) :
  Vector.magnitude (Vector.subtract p c) - Rabs r
  <= hexagonEdgeDistance p c r rot i.
Proof.
  unfold hexagonEdgeDistance, hexagonEdge. cbn [seg_start seg_end].
  destruct c as [cx cy]. cbn [x y].
  apply distance_ge_outside_disc;
    rewrite hexagonVertex_polar, polarPoint_distance; apply Rle_refl.
Qed.

(** Every edge lies on the far side of the line at distance
    [r * sqrt 3 / 2] from the centre, so it is at least that far, less
    [|p - c|], from [p]. *)
Lemma hexagonEdgeDistance_inside (p c : Vector2D) (r rot : R) (i : nat) :
  (i < 6)%nat ->
  r * sqrt 3 / 2 - Vector.magnitude (Vector.subtract p c)
  <= hexagonEdgeDistance p c r rot i.
Proof.
  intros Hi. unfold hexagonEdgeDistance.
  destruct c as [cx cy]. cbn [x y].
  destruct (hexagonEdge_ends cx cy r rot i Hi) as [-> ->].
  set (th := hexagonAngle i rot).
  pose proof (sin2_cos2 th) as SC. unfold Rsqr in SC.
  pose proof sqrt3_sqr as Q.
  (* minus the outward normal of the edge *)
  set (n := mkVector2D (- cos (th + PI / 6)) (- sin (th + PI / 6))).
  assert (U : x n * x n + y n * y n = 1).
  { unfold n. cbn [x y]. pose proof (sin2_cos2 (th + PI / 6)) as S6.
    unfold Rsqr in S6. lra. }
  pose proof (dot_unit_le_magnitude n (Vector.subtract (mkVector2D cx cy) p) U) as CS.
  rewrite (magnitude_subtract_sym (mkVector2D cx cy) p) in CS.
  eapply Rle_trans;
    [| apply (distance_ge_halfplane n p _ _
                (Vector.dot n (mkVector2D cx cy) - r * sqrt 3 / 2) U)].
  - unfold Vector.dot, Vector.subtract in *. cbn [x y] in *. lra.
  - apply Req_le. unfold Vector.dot, polarPoint, n. cbn [x y].
    rewrite cos_plus, sin_plus, cos_PI6, sin_PI6.
    set (co := cos th) in *. set (si := sin th) in *. set (q := sqrt 3) in *.
    replace (- (co * (q / 2) - si * (1 / 2)) * (cx + r * co)
             + - (si * (q / 2) + co * (1 / 2)) * (cy + r * si))
      with (- (co * (q / 2) - si * (1 / 2)) * cx
            + - (si * (q / 2) + co * (1 / 2)) * cy
            - r * q / 2 * (si * si + co * co)) by field.
    rewrite SC. field.
  - apply Req_le. unfold Vector.dot, polarPoint, n. cbn [x y].
    rewrite cos_shift60, sin_shift60.
    rewrite cos_plus, sin_plus, cos_PI6, sin_PI6.
    set (co := cos th) in *. set (si := sin th) in *. set (q := sqrt 3) in *.
    replace (- (co * (q / 2) - si * (1 / 2)) * (cx + r * (co / 2 - si * q / 2))
             + - (si * (q / 2) + co * (1 / 2)) * (cy + r * (si / 2 + co * q / 2)))
      with (- (co * (q / 2) - si * (1 / 2)) * cx
            + - (si * (q / 2) + co * (1 / 2)) * cy
            - r * q / 2 * (si * si + co * co)) by field.
    rewrite SC. field.
Qed.

(** * Further properties of the detector *)

Lemma checkHexagonCollision_near_edge
    (p : Vector2D) (br : R) (c : Vector2D) (hr rot : R) (j : nat) :
  (j < 6)%nat -> hexagonEdgeDistance p c hr rot j <= br ->
  hasCollision (checkHexagonCollision p br c hr rot) = true.
Proof.
  intros Hj Hd.
  destruct (checkHexagonCollision_scan p br c hr rot) as [k [Hk [Hmin [_ E]]]].
  rewrite E. cbn [hasCollision]. specialize (Hmin j Hj).
  destruct (Rle_dec _ br); [reflexivity | lra].
Qed.

(** A ball centred on vertex 0 touches the first edge. *)
Lemma checkHexagonCollision_at_vertex (br : R) (c : Vector2D) (hr rot : R) :
  0 <= br ->
  hasCollision
    (checkHexagonCollision (hexagonVertex (x c) (y c) hr rot 0) br c hr rot) = true.
Proof.
  intros Hbr. apply (checkHexagonCollision_near_edge _ _ _ _ _ 0%nat); [lia |].
  unfold hexagonEdgeDistance, hexagonEdge. cbn [seg_start seg_end].
  set (a := hexagonVertex (x c) (y c) hr rot 0).
  set (b := hexagonVertex (x c) (y c) hr rot ((0 + 1) mod 6)).
  rewrite distance_at_start. exact Hbr.
Qed.

(** The scan does not look at the ball radius: one edge and one distance
    serve for every radius. *)
Lemma checkHexagonCollision_uniform (p c : Vector2D) (hr rot : R) :
  exists k, (k < 6)%nat
    /\ forall br,
         checkHexagonCollision p br c hr rot
         = mkCollisionResult
             (if Rle_dec (hexagonEdgeDistance p c hr rot k) br then true else false)
             (Finite (hexagonEdgeDistance p c hr rot k))
             (seg_start (hexagonEdge (x c) (y c) hr rot k))
             (seg_end (hexagonEdge (x c) (y c) hr rot k)).
Proof.
  destruct (scan_firstNearest p (map (hexagonEdge (x c) (y c) hr rot) (seq 0 6)))
    as [k [[Hk _] E]]; [discriminate |].
  rewrite length_map, length_seq in Hk.
  exists k. split; [exact Hk |]. intros br.
  unfold checkHexagonCollision. cbv zeta. rewrite hexagonEdges_eq, E.
  rewrite hexagonEdges_nth by exact Hk. reflexivity.
Qed.

(** X10.  The detector always reports a wall of the hexagon and a distance that
    is a number, not negative; the wall and the distance are the same for
    every ball radius; a collision for one radius is a collision for every
    larger one, and a negative radius never collides. *)
Theorem checkHexagonCollision_radius_independent
    (p c : Vector2D) (hr rot br br' : R) :
  (exists d, 0 <= d /\ distance (checkHexagonCollision p br c hr rot) = Finite d)
  /\ distance (checkHexagonCollision p br c hr rot)
     = distance (checkHexagonCollision p br' c hr rot)
  /\ wallStart (checkHexagonCollision p br c hr rot)
     = wallStart (checkHexagonCollision p br' c hr rot)
  /\ wallEnd (checkHexagonCollision p br c hr rot)
     = wallEnd (checkHexagonCollision p br' c hr rot)
  /\ (br <= br' ->
      hasCollision (checkHexagonCollision p br c hr rot) = true ->
      hasCollision (checkHexagonCollision p br' c hr rot) = true)
  /\ (br < 0 -> hasCollision (checkHexagonCollision p br c hr rot) = false).
Proof.
  destruct (checkHexagonCollision_uniform p c hr rot) as [k [Hk E]].
  rewrite !E. cbn [distance wallStart wallEnd hasCollision].
  pose proof (distance_nonneg p (seg_start (hexagonEdge (x c) (y c) hr rot k))
                (seg_end (hexagonEdge (x c) (y c) hr rot k))) as N.
  fold (hexagonEdgeDistance p c hr rot k) in N.
  split; [eexists; split; [exact N | reflexivity] |].
  repeat (split; [reflexivity |]).
  split.
  - intros Hle.
    destruct (Rle_dec _ br); [| discriminate].
    destruct (Rle_dec _ br'); [reflexivity | lra].
  - intros Hneg. destruct (Rle_dec _ br); [lra | reflexivity].
Qed.

Lemma checkHexagonCollision_radius_independent_witness :
  8 <= 20
  /\ hasCollision
       (checkHexagonCollision (hexagonVertex 300 300 100 0 0) 8 canvasCenter 100 0)
     = true
  /\ hasCollision
       (checkHexagonCollision (hexagonVertex 300 300 100 0 0) 20 canvasCenter 100 0)
     = true
  /\ -1 < 0
  /\ hasCollision
       (checkHexagonCollision escapedPosition (-1) canvasCenter 100 0) = false.
Proof.
  assert (H1 : 8 <= 20) by lra.
  assert (H2 : hasCollision
                 (checkHexagonCollision (hexagonVertex 300 300 100 0 0) 8
                    canvasCenter 100 0) = true).
  { apply (checkHexagonCollision_at_vertex 8 canvasCenter 100 0). lra. }
  assert (H3 : -1 < 0) by lra.
  split; [exact H1 | split; [exact H2 | split; [| split; [exact H3 |]]]].
  - exact (proj1 (proj2 (proj2 (proj2 (proj2
      (checkHexagonCollision_radius_independent
         (hexagonVertex 300 300 100 0 0) canvasCenter 100 0 8 20))))) H1 H2).
  - exact (proj2 (proj2 (proj2 (proj2 (proj2
      (checkHexagonCollision_radius_independent
         escapedPosition canvasCenter 100 0 (-1) 20))))) H3).
Defined.

Lemma checkHexagonCollision_deep_inside
    (p : Vector2D) (br : R) (c : Vector2D) (hr rot : R) :
  Vector.magnitude (Vector.subtract p c) + br < hr * sqrt 3 / 2 ->
  hasCollision (checkHexagonCollision p br c hr rot) = false.
Proof.
  intros H.
  destruct (checkHexagonCollision_uniform p c hr rot) as [k [Hk E]].
  rewrite E. cbn [hasCollision].
  pose proof (hexagonEdgeDistance_inside p c hr rot k Hk).
  destruct (Rle_dec _ br); [lra | reflexivity].
Qed.

Lemma checkHexagonCollision_far_outside
    (p : Vector2D) (br : R) (c : Vector2D) (hr rot : R) :
  Rabs hr + br < Vector.magnitude (Vector.subtract p c) ->
  hasCollision (checkHexagonCollision p br c hr rot) = false.
Proof.
  intros H.
  destruct (checkHexagonCollision_uniform p c hr rot) as [k [Hk E]].
  rewrite E. cbn [hasCollision].
  pose proof (hexagonEdgeDistance_outside p c hr rot k).
  destruct (Rle_dec _ br); [lra | reflexivity].
Qed.

(** X11.  A collision is only ever reported for a ball centre in the ring
    between the inscribed circle shrunk by the ball radius and the
    circumscribed circle grown by it, whatever the rotation. *)
Theorem checkHexagonCollision_ring
    (p : Vector2D) (br : R) (c : Vector2D) (hr rot : R) :
  hasCollision (checkHexagonCollision p br c hr rot) = true ->
  hr * sqrt 3 / 2 - br <= Vector.magnitude (Vector.subtract p c)
  /\ Vector.magnitude (Vector.subtract p c) <= Rabs hr + br.
Proof.
  intros Y. split.
  - destruct (Rle_dec (hr * sqrt 3 / 2 - br) (Vector.magnitude (Vector.subtract p c)))
      as [L | N]; [exact L |].
    rewrite checkHexagonCollision_deep_inside in Y by lra. discriminate.
  - destruct (Rle_dec (Vector.magnitude (Vector.subtract p c)) (Rabs hr + br))
      as [L | N]; [exact L |].
    rewrite checkHexagonCollision_far_outside in Y by lra. discriminate.
Qed.

Lemma checkHexagonCollision_ring_witness :
  hasCollision
    (checkHexagonCollision (hexagonVertex 300 300 100 0 0) 8 canvasCenter 100 0) = true
  /\ 100 * sqrt 3 / 2 - 8
     <= Vector.magnitude
          (Vector.subtract (hexagonVertex 300 300 100 0 0) canvasCenter)
  /\ Vector.magnitude (Vector.subtract (hexagonVertex 300 300 100 0 0) canvasCenter)
     <= Rabs 100 + 8.
Proof.
  assert (H : hasCollision
                (checkHexagonCollision (hexagonVertex 300 300 100 0 0) 8
                   canvasCenter 100 0) = true).
  { apply (checkHexagonCollision_at_vertex 8 canvasCenter 100 0). lra. }
  split; [exact H |].
  exact (checkHexagonCollision_ring _ 8 canvasCenter 100 0 H).
Defined.

(** * The ray-casting test *)

Lemma hexagonVertex_offset (cx cy r rot : R) (i : nat) :
  (i < 6)%nat ->
  hexagonVertex cx cy r rot i
  = Vector.add (mkVector2D cx cy) (hexagonOffset (r * cos rot) (r * sin rot) i).
Proof.
  intros Hi. unfold hexagonVertex. cbv zeta.
  assert (A0 : hexagonAngle 0 rot = rot) by (unfold hexagonAngle; cbn [INR]; ring).
  pose proof sqrt3_sqr as Q.
  destruct i as [| i]; [rewrite A0; reflexivity |].
  rewrite hexagonAngle_S.
  destruct i as [| i].
  { rewrite A0, cos_shift60, sin_shift60.
    unfold Vector.add, hexagonOffset. cbn [x y]. f_equal; field. }
  rewrite hexagonAngle_S.
  destruct i as [| i].
  { rewrite A0. repeat (rewrite cos_shift60 || rewrite sin_shift60).
    unfold Vector.add, hexagonOffset. cbn [x y].
    set (q := sqrt 3) in *. f_equal.
    - replace (r * ((cos rot / 2 - sin rot * q / 2) / 2
                    - (sin rot / 2 + cos rot * q / 2) * q / 2))
        with (r * (cos rot / 4 - sin rot * q / 2 - cos rot * (q * q) / 4)) by field.
      rewrite Q. field.
    - replace (r * ((sin rot / 2 + cos rot * q / 2) / 2
                    + (cos rot / 2 - sin rot * q / 2) * q / 2))
        with (r * (sin rot / 4 + cos rot * q / 2 - sin rot * (q * q) / 4)) by field.
      rewrite Q. field. }
  (* vertices 3, 4, 5 are opposite to vertices 0, 1, 2 *)
  assert (Opp : forall u, cos (u + PI / 3 + PI / 3 + PI / 3) = - cos u
                          /\ sin (u + PI / 3 + PI / 3 + PI / 3) = - sin u).
  { intros u. replace (u + PI / 3 + PI / 3 + PI / 3) with (u + PI) by field.
    split; [apply neg_cos | apply neg_sin]. }
  rewrite hexagonAngle_S.
  destruct i as [| i].
  { rewrite A0. destruct (Opp rot) as [-> ->].
    unfold Vector.add, hexagonOffset. cbn [x y]. f_equal; ring. }
  rewrite hexagonAngle_S.
  destruct i as [| i].
  { rewrite A0.
    replace (rot + PI / 3 + PI / 3 + PI / 3 + PI / 3)
      with ((rot + PI / 3) + PI / 3 + PI / 3 + PI / 3) by ring.
    destruct (Opp (rot + PI / 3)) as [-> ->].
    rewrite cos_shift60, sin_shift60.
    unfold Vector.add, hexagonOffset. cbn [x y]. f_equal; field. }
  rewrite hexagonAngle_S.
  destruct i as [| i]; [| lia].
  rewrite A0.
  replace (rot + PI / 3 + PI / 3 + PI / 3 + PI / 3 + PI / 3)
    with ((rot + PI / 3 + PI / 3) + PI / 3 + PI / 3 + PI / 3) by ring.
  destruct (Opp (rot + PI / 3 + PI / 3)) as [-> ->].
  repeat (rewrite cos_shift60 || rewrite sin_shift60).
  unfold Vector.add, hexagonOffset. cbn [x y].
  set (q := sqrt 3) in *. f_equal.
  - replace (r * - ((cos rot / 2 - sin rot * q / 2) / 2
                    - (sin rot / 2 + cos rot * q / 2) * q / 2))
      with (- r * (cos rot / 4 - sin rot * q / 2 - cos rot * (q * q) / 4)) by field.
    rewrite Q. field.
  - replace (r * - ((sin rot / 2 + cos rot * q / 2) / 2
                    + (cos rot / 2 - sin rot * q / 2) * q / 2))
      with (- r * (sin rot / 4 + cos rot * q / 2 - sin rot * (q * q) / 4)) by field.
    rewrite Q. field.
Qed.

(** The test for an edge that runs clockwise around the point (from [vj]
    to [vi], seen from [p]): only an edge that comes up through the height
    of the point is counted. *)
Lemma rayCrosses_turning (p vi vj : Vector2D) :
  (x vi - x p) * (y vj - y p) - (x vj - x p) * (y vi - y p) < 0 ->
  rayCrosses p vi vj = Rgtb (y vi) (y p) && negb (Rgtb (y vj) (y p)).
Proof.
  intros N. unfold rayCrosses. cbv zeta. unfold Rgtb, Rltb.
  destruct (Rgt_dec (y vi) (y p)) as [Gi | Li];
    destruct (Rgt_dec (y vj) (y p)) as [Gj | Lj];
    cbn [eqb negb andb]; try reflexivity.
  - (* y vj <= y p < y vi *)
    destruct (Rlt_dec (x p) _) as [_ | NLt]; [reflexivity |].
    exfalso. apply NLt.
    assert (D : y vj - y vi < 0) by lra.
    replace ((x vj - x vi) * (y p - y vi) / (y vj - y vi) + x vi)
      with (x p + ((x vi - x p) * (y vj - y p) - (x vj - x p) * (y vi - y p))
                  * / (y vj - y vi)) by (field; lra).
    pose proof (Rinv_lt_0_compat _ D) as I.
    pose proof (Rmult_lt_0_compat _ _ (Ropp_0_gt_lt_contravar _ N)
                  (Ropp_0_gt_lt_contravar _ I)).
    lra.
  - (* y vi <= y p < y vj *)
    destruct (Rlt_dec (x p) _) as [Lt | _]; [| reflexivity].
    exfalso. revert Lt. apply Rle_not_lt.
    assert (D : 0 < y vj - y vi) by lra.
    replace ((x vj - x vi) * (y p - y vi) / (y vj - y vi) + x vi)
      with (x p + ((x vi - x p) * (y vj - y p) - (x vj - x p) * (y vi - y p))
                  * / (y vj - y vi)) by (field; lra).
    pose proof (Rinv_0_lt_compat _ D) as I.
    pose proof (Rmult_lt_0_compat _ _ (Ropp_0_gt_lt_contravar _ N) I).
    lra.
Qed.

(** Seen from the centre, every edge runs the same way around. *)
Lemma hexagon_edges_turn (cx cy r rot : R) (i j : nat) :
  (i < 6)%nat -> j = ((i + 5) mod 6)%nat -> r <> 0 ->
  (x (hexagonVertex cx cy r rot i) - cx) * (y (hexagonVertex cx cy r rot j) - cy)
  - (x (hexagonVertex cx cy r rot j) - cx) * (y (hexagonVertex cx cy r rot i) - cy)
  < 0.
Proof.
  intros Hi -> Hr.
  assert (Hj : ((i + 5) mod 6 < 6)%nat) by (apply Nat.mod_upper_bound; lia).
  rewrite !hexagonVertex_offset by assumption.
  pose proof (sin2_cos2 rot) as SC. unfold Rsqr in SC.
  pose proof sqrt3_pos as Q.
  assert (R2 : 0 < r * r) by (destruct (Rdichotomy _ _ Hr); nra).
  set (a := r * cos rot). set (b := r * sin rot).
  assert (AB : a * a + b * b = r * r).
  { unfold a, b.
    replace (r * cos rot * (r * cos rot) + r * sin rot * (r * sin rot))
      with (r * r * (sin rot * sin rot + cos rot * cos rot)) by ring.
    rewrite SC. ring. }
  assert (G : 0 < sqrt 3 / 2 * (a * a + b * b)).
  { rewrite AB. apply Rmult_lt_0_compat; lra. }
  clearbody a b.
  do 6 (destruct i as [| i];
        [ cbn [Nat.add Nat.modulo Nat.divmod fst snd Nat.sub];
          unfold Vector.add, hexagonOffset; cbn [x y];
          match goal with
          | |- ?e < 0 =>
              replace e with (- (sqrt 3 / 2 * (a * a + b * b))) by field
          end; lra |]).
  lia.
Qed.

Lemma Rgtb_offset (c o : R) : Rgtb (c + o) c = Rgtb o 0.
Proof.
  unfold Rgtb. destruct (Rgt_dec (c + o) c), (Rgt_dec o 0);
    first [reflexivity | exfalso; lra].
Qed.

(** X12.  The centre of a hexagon of non-zero radius is inside for the
    ray-casting test, whatever the rotation. *)
Theorem isPointInsideHexagon_center (c : Vector2D) (r rot : R) :
  r <> 0 -> isPointInsideHexagon c c r rot = true.
Proof.
  intros Hr. destruct c as [cx cy].
  unfold isPointInsideHexagon. cbv zeta. unfold generateHexagonVertices.
  cbn [map seq length Nat.sub fold_left rayStep nth x y].
  rewrite !rayCrosses_turning
    by (cbn [x y]; apply hexagon_edges_turn; [lia | reflexivity | exact Hr]).
  cbn [x y].
  rewrite !hexagonVertex_offset by lia.
  unfold Vector.add, hexagonOffset. cbn [x y].
  rewrite !Rgtb_offset.
  pose proof (sin2_cos2 rot) as SC. unfold Rsqr in SC.
  pose proof sqrt3_pos as Q.
  set (a := r * cos rot). set (b := r * sin rot).
  assert (AB : a * a + b * b = r * r).
  { unfold a, b.
    replace (r * cos rot * (r * cos rot) + r * sin rot * (r * sin rot))
      with (r * r * (sin rot * sin rot + cos rot * cos rot)) by ring.
    rewrite SC. ring. }
  assert (R2 : 0 < r * r) by (destruct (Rdichotomy _ _ Hr); nra).
  clearbody a b.
  assert (NZ : a * sqrt 3 <> 0 \/ b <> 0).
  { destruct (Req_dec_T b 0) as [Zb | Nb]; [left | right; exact Nb].
    intros Za. apply Rmult_integral in Za. destruct Za as [Za | Zq]; [| lra].
    rewrite Za, Zb in AB. lra. }
  set (u := a * sqrt 3) in *.
  replace (b / 2 + u / 2) with ((b + u) / 2) by field.
  replace (- b / 2 + u / 2) with ((u - b) / 2) by field.
  replace (- b / 2 - u / 2) with (- (b + u) / 2) by field.
  replace (b / 2 - u / 2) with ((b - u) / 2) by field.
  clearbody u. unfold Rgtb.
  destruct (Rgt_dec b 0), (Rgt_dec ((b + u) / 2) 0), (Rgt_dec ((u - b) / 2) 0),
    (Rgt_dec (- b) 0), (Rgt_dec (- (b + u) / 2) 0), (Rgt_dec ((b - u) / 2) 0);
    cbn [negb andb]; try reflexivity; exfalso;
    destruct NZ as [N | N]; apply N; lra.
Qed.

Lemma hexagonVertex_box (cx cy r rot : R) (i : nat) :
  cx - Rabs r <= x (hexagonVertex cx cy r rot i) <= cx + Rabs r
  /\ cy - Rabs r <= y (hexagonVertex cx cy r rot i) <= cy + Rabs r.
Proof.
  unfold hexagonVertex. cbv zeta. cbn [x y].
  pose proof (COS_bound (hexagonAngle i rot)) as [Lc Hc].
  pose proof (SIN_bound (hexagonAngle i rot)) as [Ls Hs].
  set (co := cos (hexagonAngle i rot)) in *.
  set (si := sin (hexagonAngle i rot)) in *.
  destruct (Rcase_abs r) as [Neg | Pos].
  - rewrite Rabs_left by exact Neg. repeat split; nra.
  - rewrite Rabs_right by exact Pos. repeat split; nra.
Qed.

Lemma rayCrosses_same_side (p vi vj : Vector2D) :
  Rgtb (y vi) (y p) = Rgtb (y vj) (y p) -> rayCrosses p vi vj = false.
Proof.
  intros E. unfold rayCrosses. cbv zeta. rewrite E, eqb_reflx. reflexivity.
Qed.

(** The test counts every edge that passes the height of a point lying to
    the left of it. *)
Lemma rayCrosses_left (p vi vj : Vector2D) :
  x p < x vi -> x p < x vj ->
  rayCrosses p vi vj = negb (eqb (Rgtb (y vi) (y p)) (Rgtb (y vj) (y p))).
Proof.
  intros Hi Hj. unfold rayCrosses. cbv zeta. unfold Rgtb, Rltb.
  destruct (Rgt_dec (y vi) (y p)) as [Gi | Li];
    destruct (Rgt_dec (y vj) (y p)) as [Gj | Lj];
    cbn [eqb negb andb]; try reflexivity.
  - destruct (Rlt_dec (x p) _) as [_ | NLt]; [reflexivity |].
    exfalso. apply NLt.
    set (t := (y vi - y p) / (y vi - y vj)).
    assert (D : y vi - y vj <> 0) by lra.
    assert (T : t * (y vi - y vj) = y vi - y p) by (unfold t; field; exact D).
    assert (T0 : 0 <= t) by nra.
    assert (T1 : t <= 1) by nra.
    replace ((x vj - x vi) * (y p - y vi) / (y vj - y vi) + x vi)
      with ((1 - t) * x vi + t * x vj) by (unfold t; field; lra).
    clearbody t. nra.
  - destruct (Rlt_dec (x p) _) as [_ | NLt]; [reflexivity |].
    exfalso. apply NLt.
    set (t := (y p - y vi) / (y vj - y vi)).
    assert (D : y vj - y vi <> 0) by lra.
    assert (T : t * (y vj - y vi) = y p - y vi) by (unfold t; field; exact D).
    assert (T0 : 0 <= t) by nra.
    assert (T1 : t <= 1) by nra.
    replace ((x vj - x vi) * (y p - y vi) / (y vj - y vi) + x vi)
      with ((1 - t) * x vi + t * x vj) by (unfold t; field; lra).
    clearbody t. nra.
Qed.

(** X13.  The ray-casting test answers [false] for every point outside the
    square of half side [|radius|] about the centre, on each of its four
    sides, and for every point when the radius is 0. *)
Theorem isPointInsideHexagon_outside_box (p c : Vector2D) (r rot : R) :
  (x p < x c - Rabs r \/ x c + Rabs r <= x p
   \/ y p < y c - Rabs r \/ y c + Rabs r <= y p \/ r = 0) ->
  isPointInsideHexagon p c r rot = false.
Proof.
  intros H.
  pose proof (hexagonVertex_box (x c) (y c) r rot) as B.
  destruct H as [Left | [Right | [Below | [Above | Zero]]]].
  - unfold isPointInsideHexagon. cbv zeta. unfold generateHexagonVertices.
    cbn [map seq length Nat.sub fold_left rayStep nth].
    rewrite !rayCrosses_left
      by (match goal with
          | |- _ < x (hexagonVertex _ _ _ _ ?i) => destruct (B i) as [[? _] _]; lra
          end).
    generalize (Rgtb (y (hexagonVertex (x c) (y c) r rot 0)) (y p)),
      (Rgtb (y (hexagonVertex (x c) (y c) r rot 1)) (y p)),
      (Rgtb (y (hexagonVertex (x c) (y c) r rot 2)) (y p)),
      (Rgtb (y (hexagonVertex (x c) (y c) r rot 3)) (y p)),
      (Rgtb (y (hexagonVertex (x c) (y c) r rot 4)) (y p)),
      (Rgtb (y (hexagonVertex (x c) (y c) r rot 5)) (y p)).
    intros [] [] [] [] [] []; reflexivity.
  - apply isPointInsideHexagon_right, Right.
  - assert (G : forall i, Rgtb (y (hexagonVertex (x c) (y c) r rot i)) (y p) = true).
    { intros i. destruct (B i) as [_ [? _]]. unfold Rgtb.
      destruct (Rgt_dec _ (y p)); [reflexivity | exfalso; lra]. }
    unfold isPointInsideHexagon. cbv zeta. unfold generateHexagonVertices.
    cbn [map seq length Nat.sub fold_left rayStep nth].
    rewrite !rayCrosses_same_side by (rewrite !G; reflexivity). reflexivity.
  - assert (G : forall i, Rgtb (y (hexagonVertex (x c) (y c) r rot i)) (y p) = false).
    { intros i. destruct (B i) as [_ [_ ?]]. unfold Rgtb.
      destruct (Rgt_dec _ (y p)); [exfalso; lra | reflexivity]. }
    unfold isPointInsideHexagon. cbv zeta. unfold generateHexagonVertices.
    cbn [map seq length Nat.sub fold_left rayStep nth].
    rewrite !rayCrosses_same_side by (rewrite !G; reflexivity). reflexivity.
  - assert (G : forall i j, Rgtb (y (hexagonVertex (x c) (y c) r rot i)) (y p)
                            = Rgtb (y (hexagonVertex (x c) (y c) r rot j)) (y p)).
    { intros i j. unfold hexagonVertex. cbv zeta. cbn [y]. rewrite Zero.
      rewrite !Rmult_0_l. reflexivity. }
    unfold isPointInsideHexagon. cbv zeta. unfold generateHexagonVertices.
    cbn [map seq length Nat.sub fold_left rayStep nth].
    rewrite !rayCrosses_same_side by apply G. reflexivity.
Qed.

Lemma isPointInsideHexagon_outside_box_witness :
  (x (mkVector2D 150 300) < x canvasCenter - Rabs 100
   \/ x canvasCenter + Rabs 100 <= x (mkVector2D 150 300)
   \/ y (mkVector2D 150 300) < y canvasCenter - Rabs 100
   \/ y canvasCenter + Rabs 100 <= y (mkVector2D 150 300) \/ 100 = 0)
  /\ isPointInsideHexagon (mkVector2D 150 300) canvasCenter 100 0 = false.
Proof.
  assert (H : x (mkVector2D 150 300) < x canvasCenter - Rabs 100
              \/ x canvasCenter + Rabs 100 <= x (mkVector2D 150 300)
              \/ y (mkVector2D 150 300) < y canvasCenter - Rabs 100
              \/ y canvasCenter + Rabs 100 <= y (mkVector2D 150 300) \/ 100 = 0).
  { left. rewrite (Rabs_right 100) by lra. cbn [x canvasCenter]. lra. }
  split; [exact H |].
  exact (isPointInsideHexagon_outside_box (mkVector2D 150 300) canvasCenter 100 0 H).
Defined.

Lemma isPointInsideHexagon_center_witness :
  200 <> 0 /\ isPointInsideHexagon canvasCenter canvasCenter 200 (PI / 7) = true.
Proof.
  assert (H : 200 <> 0) by lra.
  split; [exact H | exact (isPointInsideHexagon_center canvasCenter 200 (PI / 7) H)].
Defined.

(** Cauchy-Schwarz. *)
Lemma dot_le_magnitudes (a b : Vector2D) :
  Vector.dot a b <= Vector.magnitude a * Vector.magnitude b.
Proof.
  pose proof (magnitude_nonneg a) as Ha. pose proof (magnitude_nonneg b) as Hb.
  pose proof (magnitude_sqr a) as Sa. pose proof (magnitude_sqr b) as Sb.
  apply Rsqr_incr_0_var; [| apply Rmult_le_pos; assumption].
  unfold Rsqr, Vector.dot.
  replace (Vector.magnitude a * Vector.magnitude b
           * (Vector.magnitude a * Vector.magnitude b))
    with ((Vector.magnitude a * Vector.magnitude a)
          * (Vector.magnitude b * Vector.magnitude b)) by ring.
  rewrite Sa, Sb.
  pose proof (Rle_0_sqr (x a * y b - y a * x b)) as Q. unfold Rsqr in Q.
  nra.
Qed.

(** The heights of the six vertices cannot all stay within [t] of the
    centre's when [t] is less than the radius of the inscribed circle
    ([u] stands for [a * sqrt 3]). *)
Lemma offsets_reach (b u t : R) :
  4 * (t * t) < u * u + 3 * (b * b) ->
  b <= t -> - b <= t ->
  (b + u) / 2 <= t -> - (b + u) / 2 <= t ->
  (u - b) / 2 <= t -> (b - u) / 2 <= t ->
  False.
Proof.
  intros K H0 H3 H1 H4 H2 H5.
  assert (T : 0 <= t) by lra.
  assert (B : b * b <= t * t) by nra.
  assert (S1 : (b + u) * (b + u) <= 4 * (t * t)) by nra.
  assert (S2 : (u - b) * (u - b) <= 4 * (t * t)) by nra.
  destruct (Rle_dec (b * b) (u * u)) as [Small | Big]; [| nra].
  destruct (Rle_dec 0 (b * u)) as [Pos | Neg].
  - (* b and u of the same sign, |b| <= |u|: then b u >= b b *)
    assert (b * b <= b * u); [| nra].
    destruct (Rle_dec 0 b); [destruct (Rle_dec b u) | destruct (Rle_dec u b)]; nra.
  - assert (b * b <= - (b * u)); [| nra].
    destruct (Rle_dec 0 b); [destruct (Rle_dec b (- u)) | destruct (Rle_dec (- u) b)]; nra.
Qed.

Lemma Rgtb_shift (c o t : R) : Rgtb (c + o) t = Rgtb o (t - c).
Proof.
  unfold Rgtb. destruct (Rgt_dec (c + o) t), (Rgt_dec o (t - c));
    first [reflexivity | exfalso; lra].
Qed.

(** Seen from a point within the inscribed circle, every edge runs the
    same way around. *)
Lemma hexagon_edges_turn_inscribed (p c : Vector2D) (r rot : R) (i j : nat) :
  (i < 6)%nat -> j = ((i + 5) mod 6)%nat -> 0 < r ->
  Vector.magnitude (Vector.subtract p c) < r * sqrt 3 / 2 ->
  (x (hexagonVertex (x c) (y c) r rot i) - x p)
  * (y (hexagonVertex (x c) (y c) r rot j) - y p)
  - (x (hexagonVertex (x c) (y c) r rot j) - x p)
    * (y (hexagonVertex (x c) (y c) r rot i) - y p)
  < 0.
Proof.
  intros Hi Hj Hr Hp.
  assert (Hj6 : (j < 6)%nat) by (subst j; apply Nat.mod_upper_bound; lia).
  assert (Hij : i = ((j + 1) mod 6)%nat).
  { subst j. do 6 (destruct i as [| i]; [reflexivity |]). lia. }
  rewrite Hij. rewrite (hexagonVertex_next (x c) (y c) r rot j Hj6).
  change (hexagonVertex (x c) (y c) r rot j)
    with (polarPoint (mkVector2D (x c) (y c)) r (hexagonAngle j rot)).
  unfold polarPoint. cbn [x y]. rewrite cos_shift60, sin_shift60.
  pose proof (sin2_cos2 (hexagonAngle j rot)) as SC. unfold Rsqr in SC.
  pose proof sqrt3_sqr as Q. pose proof sqrt3_pos as Qp.
  set (co := cos (hexagonAngle j rot)) in *.
  set (si := sin (hexagonAngle j rot)) in *.
  set (q := sqrt 3) in *.
  set (P := Vector.subtract p c) in *.
  set (W := mkVector2D (r * (- si / 2 + co * q / 2)) (r * (co / 2 + si * q / 2))).
  assert (MW : Vector.magnitude W = r).
  { apply magnitude_eq; [lra |]. unfold W. cbn [x y].
    replace (r * (- si / 2 + co * q / 2) * (r * (- si / 2 + co * q / 2))
             + r * (co / 2 + si * q / 2) * (r * (co / 2 + si * q / 2)))
      with (r * r * ((si * si + co * co) * (1 / 4 + q * q / 4))) by field.
    rewrite SC, Q. field. }
  pose proof (dot_le_magnitudes P W) as CS. rewrite MW in CS.
  pose proof (magnitude_nonneg P) as P0.
  assert (B : Vector.dot P W < r * (r * q / 2)) by nra.
  unfold Vector.dot, P, W, Vector.subtract in B. cbn [x y] in B.
  replace ((x c + r * (co / 2 - si * q / 2) - x p) * (y c + r * si - y p)
           - (x c + r * co - x p) * (y c + r * (si / 2 + co * q / 2) - y p))
    with ((x p - x c) * (r * (- si / 2 + co * q / 2))
          + (y p - y c) * (r * (co / 2 + si * q / 2))
          - r * (r * q / 2) * (si * si + co * co)) by field.
  rewrite SC. lra.
Qed.

(** X14.  Every point within the inscribed circle of the hexagon is inside for
    the ray-casting test, whatever the rotation. *)
Theorem isPointInsideHexagon_inscribed (p c : Vector2D) (r rot : R) :
  0 < r ->
  Vector.magnitude (Vector.subtract p c) < r * sqrt 3 / 2 ->
  isPointInsideHexagon p c r rot = true.
Proof.
  intros Hr Hp.
  unfold isPointInsideHexagon. cbv zeta. unfold generateHexagonVertices.
  cbn [map seq length Nat.sub fold_left rayStep nth].
  rewrite !rayCrosses_turning
    by (apply hexagon_edges_turn_inscribed; [lia | reflexivity | exact Hr | exact Hp]).
  rewrite !hexagonVertex_offset by lia.
  unfold Vector.add, hexagonOffset. cbn [x y].
  rewrite !(Rgtb_shift (y c)).
  pose proof (sin2_cos2 rot) as SC. unfold Rsqr in SC.
  pose proof sqrt3_sqr as Q. pose proof sqrt3_pos as Qp.
  pose proof (magnitude_nonneg (Vector.subtract p c)) as M0.
  assert (MP : (y p - y c) * (y p - y c)
               <= Vector.magnitude (Vector.subtract p c)
                  * Vector.magnitude (Vector.subtract p c)).
  { rewrite magnitude_sqr. unfold Vector.subtract. cbn [x y].
    pose proof (Rle_0_sqr (x p - x c)) as S. unfold Rsqr in S. lra. }
  set (m := Vector.magnitude (Vector.subtract p c)) in *.
  set (t := y p - y c) in *.
  set (a := r * cos rot). set (b := r * sin rot).
  assert (AB : a * a + b * b = r * r).
  { unfold a, b.
    replace (r * cos rot * (r * cos rot) + r * sin rot * (r * sin rot))
      with (r * r * (sin rot * sin rot + cos rot * cos rot)) by ring.
    rewrite SC. ring. }
  clearbody a b.
  set (u := a * sqrt 3) in *.
  assert (UU : u * u = 3 * (a * a)).
  { unfold u. replace (a * sqrt 3 * (a * sqrt 3)) with (a * a * (sqrt 3 * sqrt 3)) by ring.
    rewrite Q. ring. }
  assert (K : 4 * (t * t) < u * u + 3 * (b * b)).
  { assert (m * m < r * sqrt 3 / 2 * (r * sqrt 3 / 2)) by nra.
    replace (r * sqrt 3 / 2 * (r * sqrt 3 / 2)) with (r * r * (sqrt 3 * sqrt 3) / 4) in H
      by field.
    rewrite Q in H. lra. }
  assert (K' : 4 * (- t * - t) < u * u + 3 * (b * b))
    by (replace (- t * - t) with (t * t) by ring; exact K).
  replace (b / 2 + u / 2) with ((b + u) / 2) by field.
  replace (- b / 2 + u / 2) with ((u - b) / 2) by field.
  replace (- b / 2 - u / 2) with (- (b + u) / 2) by field.
  replace (b / 2 - u / 2) with ((b - u) / 2) by field.
  clearbody u t. unfold Rgtb.
  destruct (Rgt_dec b t), (Rgt_dec ((b + u) / 2) t), (Rgt_dec ((u - b) / 2) t),
    (Rgt_dec (- b) t), (Rgt_dec (- (b + u) / 2) t), (Rgt_dec ((b - u) / 2) t);
    cbn [negb andb]; try reflexivity; exfalso;
    first [ lra
          | apply (offsets_reach b u t K); lra
          | apply (offsets_reach b u (- t) K'); lra ].
Qed.

Lemma isPointInsideHexagon_inscribed_witness :
  0 < 200
  /\ Vector.magnitude (Vector.subtract (mkVector2D 300 250) canvasCenter)
     < 200 * sqrt 3 / 2
  /\ isPointInsideHexagon (mkVector2D 300 250) canvasCenter 200 (PI / 7) = true.
Proof.
  assert (H1 : 0 < 200) by lra.
  assert (H2 : Vector.magnitude (Vector.subtract (mkVector2D 300 250) canvasCenter)
               < 200 * sqrt 3 / 2).
  { rewrite (magnitude_eq _ 50);
      [| lra | unfold Vector.subtract, canvasCenter; cbn [x y]; ring].
    pose proof sqrt3_sqr. pose proof sqrt3_pos. nra. }
  split; [exact H1 | split; [exact H2 |]].
  exact (isPointInsideHexagon_inscribed (mkVector2D 300 250) canvasCenter 200 (PI / 7)
           H1 H2).
Defined.

(** * Further properties of the resolver *)

Lemma normalize_of_unit (v : Vector2D) :
  x v * x v + y v * y v = 1 -> Vector.normalize v = v.
Proof.
  intros U. rewrite (normalize_eq v 1) by (lra || (rewrite U; ring)).
  symmetry. apply vector_eq; field.
Qed.

Lemma orientedNormal_unit (ball : Ball) (ws we : Vector2D) :
  ws <> we ->
  x (orientedNormal ball ws we) * x (orientedNormal ball ws we)
  + y (orientedNormal ball ws we) * y (orientedNormal ball ws we) = 1.
Proof.
  intros Hne. rewrite orientedNormal_sqr. apply candidateNormal_unit, Hne.
Qed.

(** X15.  On a collision with a wall of positive length the velocity component
    along the wall normal is reversed and multiplied by 0.85, whatever its
    sign (a ball already moving away from the wall is sent back towards it),
    the component along the wall is only multiplied by 0.85, and the speed
    is exactly 0.85 times the incoming speed. *)
Theorem handleWallCollision_bounce (ball : Ball) (ws we : Vector2D) (d : R) :
  ws <> we -> d <= radius ball ->
  let n := orientedNormal ball ws we in
  let v' := velocity (handleWallCollision ball ws we d) in
  Vector.dot v' n = - (85 / 100) * Vector.dot (velocity ball) n
  /\ Vector.dot v' (Vector.subtract we ws)
     = 85 / 100 * Vector.dot (velocity ball) (Vector.subtract we ws)
  /\ Vector.magnitude v' = 85 / 100 * Vector.magnitude (velocity ball)
  /\ (0 < Vector.dot (velocity ball) n -> Vector.dot v' n < 0).
Proof.
  intros Hne Hd n v'. subst v'.
  rewrite (handleWallCollision_collision ball ws we d Hd). cbn [velocity].
  pose proof (orientedNormal_unit ball ws we Hne) as U.
  pose proof (orientedNormal_perp ball ws we) as P.
  fold n in U, P |- *. clearbody n.
  assert (E : Vector.dot
                (Vector.multiply (Vector.reflect (velocity ball) n)
                   PHYSICS_CONSTANTS.BOUNCE_DAMPING) n
              = - (85 / 100) * Vector.dot (velocity ball) n).
  { pose proof (reflect_components (velocity ball) n) as [Hn _]. cbv zeta in Hn.
    rewrite (normalize_of_unit n U) in Hn.
    unfold Vector.dot, Vector.multiply, PHYSICS_CONSTANTS.BOUNCE_DAMPING in *.
    cbn [x y] in *. nra. }
  split; [exact E |]. split; [| split].
  - unfold Vector.reflect. cbv zeta. rewrite (normalize_of_unit n U).
    unfold Vector.dot, Vector.multiply, Vector.subtract,
      PHYSICS_CONSTANTS.BOUNCE_DAMPING in *.
    cbn [x y] in *.
    set (w1 := x we - x ws) in *. set (w2 := y we - y ws) in *.
    replace ((x (velocity ball)
              - x n * (2 * (x (velocity ball) * x n + y (velocity ball) * y n)))
             * (85 / 100) * w1
             + (y (velocity ball)
                - y n * (2 * (x (velocity ball) * x n + y (velocity ball) * y n)))
               * (85 / 100) * w2)
      with (85 / 100 * (x (velocity ball) * w1 + y (velocity ball) * w2)
            - 85 / 100 * 2 * (x (velocity ball) * x n + y (velocity ball) * y n)
              * (x n * w1 + y n * w2)) by ring.
    rewrite P. ring.
  - rewrite magnitude_multiply
      by (unfold PHYSICS_CONSTANTS.BOUNCE_DAMPING; lra).
    rewrite reflect_magnitude. reflexivity.
  - intros Hpos. rewrite E. lra.
Qed.

Lemma handleWallCollision_bounce_witness :
  exampleWallStart <> exampleWallEnd
  /\ 4 <= radius exampleBall
  /\ Vector.magnitude
       (velocity (handleWallCollision exampleBall exampleWallStart exampleWallEnd 4))
     = 85 / 100 * Vector.magnitude (velocity exampleBall).
Proof.
  assert (H1 : exampleWallStart <> exampleWallEnd).
  { intros E. apply (f_equal x) in E. cbn in E. lra. }
  assert (H2 : 4 <= radius exampleBall) by (cbn [radius exampleBall]; lra).
  split; [exact H1 | split; [exact H2 |]].
  exact (proj1 (proj2 (proj2
    (handleWallCollision_bounce exampleBall exampleWallStart exampleWallEnd 4 H1 H2)))).
Defined.

(** X16.  On a collision with a wall of positive length the ball is moved by
    exactly [radius - distance], at a right angle to the wall, to the side
    of the wall line its centre is on. *)
Theorem handleWallCollision_push (ball : Ball) (ws we : Vector2D) (d : R) :
  ws <> we -> d <= radius ball ->
  let move :=
    Vector.subtract (position (handleWallCollision ball ws we d)) (position ball) in
  Vector.magnitude move = radius ball - d
  /\ Vector.dot move (Vector.subtract we ws) = 0
  /\ 0 <= Vector.dot move (ballDirectionOf ball ws we).
Proof.
  intros Hne Hd move. subst move.
  rewrite (handleWallCollision_collision ball ws we d Hd). cbn [position].
  pose proof (orientedNormal_unit ball ws we Hne) as U.
  pose proof (orientedNormal_perp ball ws we) as P.
  pose proof (orientedNormal_dot ball ws we) as O.
  pose proof (Rabs_pos (Vector.dot (candidateNormal ws we)
                          (ballDirectionOf ball ws we))) as A.
  rewrite <- O in A. clear O.
  set (n := orientedNormal ball ws we) in *.
  assert (E : Vector.subtract
                (Vector.add (position ball) (Vector.multiply n (radius ball - d)))
                (position ball)
              = Vector.multiply n (radius ball - d)).
  { unfold Vector.subtract, Vector.add, Vector.multiply. cbn [x y]. f_equal; ring. }
  rewrite E. split; [| split].
  - rewrite magnitude_multiply by lra.
    unfold Vector.magnitude. rewrite U, sqrt_1. ring.
  - unfold Vector.dot, Vector.multiply in *. cbn [x y] in *.
    replace (x n * (radius ball - d) * x (Vector.subtract we ws)
             + y n * (radius ball - d) * y (Vector.subtract we ws))
      with ((radius ball - d)
            * (x n * x (Vector.subtract we ws) + y n * y (Vector.subtract we ws)))
      by ring.
    rewrite P. ring.
  - unfold Vector.dot, Vector.multiply in *. cbn [x y] in *.
    replace (x n * (radius ball - d) * x (ballDirectionOf ball ws we)
             + y n * (radius ball - d) * y (ballDirectionOf ball ws we))
      with ((radius ball - d)
            * (x n * x (ballDirectionOf ball ws we)
               + y n * y (ballDirectionOf ball ws we))) by ring.
    apply Rmult_le_pos; lra.
Qed.

Lemma handleWallCollision_push_witness :
  exampleWallStart <> exampleWallEnd
  /\ 4 <= radius exampleBall
  /\ Vector.magnitude
       (Vector.subtract
          (position (handleWallCollision exampleBall exampleWallStart exampleWallEnd 4))
          (position exampleBall))
     = radius exampleBall - 4.
Proof.
  assert (H1 : exampleWallStart <> exampleWallEnd).
  { intros E. apply (f_equal x) in E. cbn in E. lra. }
  assert (H2 : 4 <= radius exampleBall) by (cbn [radius exampleBall]; lra).
  split; [exact H1 | split; [exact H2 |]].
  exact (proj1
    (handleWallCollision_push exampleBall exampleWallStart exampleWallEnd 4 H1 H2)).
Defined.

(** X17.  On a collision with a wall of zero length there is no normal: the ball
    stays where it is, however deep the overlap, and its velocity is only
    multiplied by 0.85. *)
Theorem handleWallCollision_point_wall (ball : Ball) (w : Vector2D) (d : R) :
  d <= radius ball ->
  position (handleWallCollision ball w w d) = position ball
  /\ velocity (handleWallCollision ball w w d)
     = Vector.multiply (velocity ball) (85 / 100)
  /\ radius (handleWallCollision ball w w d) = radius ball.
Proof.
  intros Hd.
  rewrite (handleWallCollision_collision ball w w d Hd).
  cbn [position velocity radius].
  assert (C : candidateNormal w w = mkVector2D 0 0).
  { unfold candidateNormal. cbv zeta. apply normalize_zero.
    apply magnitude_zero_iff. unfold Vector.subtract. cbn [x y]. split; ring. }
  assert (N : orientedNormal ball w w = mkVector2D 0 0).
  { unfold orientedNormal. cbv zeta. rewrite C.
    destruct (Rlt_dec _ 0); [| reflexivity]. cbn [x y]. f_equal; ring. }
  rewrite N. split; [| split; [| reflexivity]].
  - unfold Vector.add, Vector.multiply. cbn [x y].
    symmetry. apply vector_eq; ring.
  - rewrite reflect_zero_normal. reflexivity.
Qed.

(** * Further properties of the integrator *)

Lemma magnitude_multiply_abs (v : Vector2D) (k : R) :
  Vector.magnitude (Vector.multiply v k) = Rabs k * Vector.magnitude v.
Proof.
  unfold Vector.magnitude, Vector.multiply. cbn [x y].
  replace (x v * k * (x v * k) + y v * k * (y v * k))
    with (Rsqr k * (x v * x v + y v * y v)) by (unfold Rsqr; ring).
  rewrite sqrt_mult_alt by apply Rle_0_sqr.
  rewrite sqrt_Rsqr_abs. reflexivity.
Qed.

(** The velocity before the threshold test. *)
Lemma updateBallPhysics_unfold (ball : Ball) (dt : R) :
  let slowed :=
    mkVector2D (x (velocity ball) * (98 / 100))
               ((y (velocity ball) + 500 * dt) * (98 / 100)) in
  let v' := if Rlt_dec (Vector.magnitude slowed) (1 / 10)
            then mkVector2D 0 0 else slowed in
  updateBallPhysics ball dt
  = mkBall (Vector.add (position ball) (Vector.multiply v' dt)) v' (radius ball).
Proof.
  cbv zeta. unfold updateBallPhysics. cbv zeta.
  unfold PHYSICS_CONSTANTS.GRAVITY, PHYSICS_CONSTANTS.FRICTION,
    PHYSICS_CONSTANTS.MIN_VELOCITY, Vector.create.
  replace (Vector.multiply
             (Vector.add (velocity ball) (Vector.multiply (mkVector2D 0 500) dt))
             (98 / 100))
    with (mkVector2D (x (velocity ball) * (98 / 100))
                     ((y (velocity ball) + 500 * dt) * (98 / 100))).
  - reflexivity.
  - unfold Vector.multiply, Vector.add. cbn [x y]. f_equal; ring.
Qed.

(** X18.  After a tick the ball is either exactly at rest, and then it has not
    moved, or its speed is at least the threshold 0.1: no speed strictly
    between 0 and 0.1 survives a tick. *)
Theorem updateBallPhysics_threshold (ball : Ball) (dt : R) :
  (velocity (updateBallPhysics ball dt) = mkVector2D 0 0
   /\ position (updateBallPhysics ball dt) = position ball)
  \/ (1 / 10 <= Vector.magnitude (velocity (updateBallPhysics ball dt))
      /\ velocity (updateBallPhysics ball dt)
         = mkVector2D (x (velocity ball) * (98 / 100))
                      ((y (velocity ball) + 500 * dt) * (98 / 100))).
Proof.
  pose proof (updateBallPhysics_unfold ball dt) as E. cbv zeta in E.
  rewrite E. clear E. cbn [velocity position].
  destruct (Rlt_dec _ (1 / 10)) as [Lt | Ge].
  - left. split; [reflexivity |].
    unfold Vector.add, Vector.multiply. cbn [x y].
    symmetry. apply vector_eq; ring.
  - right. split; [lra | reflexivity].
Qed.

(** X19.  A ball at rest stays exactly as it is when the time step is shorter
    than 1/4900 s, the first frame's step 0 included: gravity alone then
    stays below the speed threshold.  From 1/4900 s on it starts to fall
    with velocity [(0, 490 dt)]. *)
Theorem updateBallPhysics_rest (ball : Ball) (dt : R) :
  velocity ball = mkVector2D 0 0 ->
  (Rabs dt < 1 / 4900 -> updateBallPhysics ball dt = ball)
  /\ (1 / 4900 <= Rabs dt ->
      velocity (updateBallPhysics ball dt) = mkVector2D 0 (490 * dt)
      /\ position (updateBallPhysics ball dt)
         = Vector.add (position ball) (mkVector2D 0 (490 * dt * dt))).
Proof.
  intros V0.
  pose proof (updateBallPhysics_unfold ball dt) as E. cbv zeta in E.
  rewrite E. clear E. rewrite V0. cbn [x y].
  assert (M : Vector.magnitude (mkVector2D (0 * (98 / 100)) ((0 + 500 * dt) * (98 / 100)))
              = 490 * Rabs dt).
  { unfold Vector.magnitude. cbn [x y].
    replace (0 * (98 / 100) * (0 * (98 / 100))
             + (0 + 500 * dt) * (98 / 100) * ((0 + 500 * dt) * (98 / 100)))
      with (Rsqr (490 * dt)) by (unfold Rsqr; field).
    rewrite sqrt_Rsqr_abs, Rabs_mult, (Rabs_right 490) by lra. reflexivity. }
  rewrite M. split.
  - intros Small. destruct (Rlt_dec _ (1 / 10)) as [_ | N]; [| exfalso; lra].
    destruct ball as [pos vel rad]. cbn [position velocity radius] in *.
    rewrite V0. f_equal.
    unfold Vector.add, Vector.multiply. cbn [x y].
    symmetry. apply vector_eq; ring.
  - intros Large. destruct (Rlt_dec _ (1 / 10)) as [L | _]; [exfalso; lra |].
    cbn [velocity position]. split.
    + f_equal; field.
    + unfold Vector.add, Vector.multiply. cbn [x y]. f_equal; field.
Qed.

Lemma updateBallPhysics_rest_witness :
  velocity (createBall 300 250 8) = mkVector2D 0 0
  /\ Rabs 0 < 1 / 4900
  /\ updateBallPhysics (createBall 300 250 8) 0 = createBall 300 250 8
  /\ 1 / 4900 <= Rabs (16 / 1000)
  /\ velocity (updateBallPhysics (createBall 300 250 8) (16 / 1000))
     = mkVector2D 0 (490 * (16 / 1000)).
Proof.
  assert (H0 : velocity (createBall 300 250 8) = mkVector2D 0 0) by reflexivity.
  assert (H1 : Rabs 0 < 1 / 4900) by (rewrite Rabs_R0; lra).
  assert (H2 : 1 / 4900 <= Rabs (16 / 1000)) by (rewrite Rabs_right; lra).
  split; [exact H0 | split; [exact H1 | split; [| split; [exact H2 |]]]].
  - exact (proj1 (updateBallPhysics_rest (createBall 300 250 8) 0 H0) H1).
  - exact (proj1 (proj2 (updateBallPhysics_rest (createBall 300 250 8) (16 / 1000) H0) H2)).
Defined.

(** X20.  Falling under gravity alone the ball never exceeds the terminal
    velocity [24500 dt]: a downward velocity between 0 and that bound stays
    between 0 and that bound; and the horizontal velocity never grows. *)
Theorem updateBallPhysics_terminal_velocity (ball : Ball) (dt : R) :
  Rabs (x (velocity (updateBallPhysics ball dt)))
  <= 98 / 100 * Rabs (x (velocity ball))
  /\ (0 <= dt -> 0 <= y (velocity ball) <= 24500 * dt ->
      0 <= y (velocity (updateBallPhysics ball dt)) <= 24500 * dt).
Proof.
  pose proof (updateBallPhysics_unfold ball dt) as E. cbv zeta in E.
  rewrite E. clear E. cbn [velocity].
  destruct (Rlt_dec _ (1 / 10)) as [_ | _]; cbn [x y].
  - split.
    + rewrite Rabs_R0. pose proof (Rabs_pos (x (velocity ball))). lra.
    + intros. lra.
  - split.
    + rewrite Rabs_mult, (Rabs_right (98 / 100)) by lra. lra.
    + intros. lra.
Qed.

Lemma updateBallPhysics_terminal_velocity_witness :
  0 <= 16 / 1000
  /\ 0 <= y (velocity (mkBall (mkVector2D 300 250) (mkVector2D 5 100) 8))
     <= 24500 * (16 / 1000)
  /\ 0 <= y (velocity (updateBallPhysics
                         (mkBall (mkVector2D 300 250) (mkVector2D 5 100) 8)
                         (16 / 1000)))
     <= 24500 * (16 / 1000).
Proof.
  assert (H1 : 0 <= 16 / 1000) by lra.
  assert (H2 : 0 <= y (velocity (mkBall (mkVector2D 300 250) (mkVector2D 5 100) 8))
               <= 24500 * (16 / 1000)) by (cbn [y velocity]; lra).
  split; [exact H1 | split; [exact H2 |]].
  exact (proj2 (updateBallPhysics_terminal_velocity
                  (mkBall (mkVector2D 300 250) (mkVector2D 5 100) 8) (16 / 1000))
               H1 H2).
Defined.

Lemma updateBallPhysics_speed_bounds (ball : Ball) (dt : R) :
  Vector.magnitude (velocity (updateBallPhysics ball dt))
  <= 98 / 100 * (Vector.magnitude (velocity ball) + 500 * Rabs dt)
  /\ Vector.magnitude
       (Vector.subtract (position (updateBallPhysics ball dt)) (position ball))
     = Rabs dt * Vector.magnitude (velocity (updateBallPhysics ball dt)).
Proof.
  pose proof (updateBallPhysics_unfold ball dt) as E. cbv zeta in E.
  rewrite E. clear E. cbn [velocity position].
  set (slowed := mkVector2D (x (velocity ball) * (98 / 100))
                            ((y (velocity ball) + 500 * dt) * (98 / 100))).
  assert (B : Vector.magnitude slowed
              <= 98 / 100 * (Vector.magnitude (velocity ball) + 500 * Rabs dt)).
  { replace slowed
      with (Vector.multiply
              (Vector.add (velocity ball) (Vector.multiply (mkVector2D 0 500) dt))
              (98 / 100)).
    - rewrite magnitude_multiply by lra.
      pose proof (magnitude_add_le (velocity ball)
                    (Vector.multiply (mkVector2D 0 500) dt)) as T.
      rewrite magnitude_multiply_abs in T.
      rewrite (magnitude_eq (mkVector2D 0 500) 500) in T
        by (lra || (cbn [x y]; ring)).
      lra.
    - unfold slowed, Vector.multiply, Vector.add. cbn [x y]. f_equal; ring. }
  split.
  - destruct (Rlt_dec _ (1 / 10)); [| exact B].
    rewrite magnitude_zero_vector.
    pose proof (magnitude_nonneg (velocity ball)). pose proof (Rabs_pos dt). lra.
  - set (v' := if Rlt_dec _ _ then _ else _).
    replace (Vector.subtract (Vector.add (position ball) (Vector.multiply v' dt))
                             (position ball))
      with (Vector.multiply v' dt).
    + apply magnitude_multiply_abs.
    + unfold Vector.subtract, Vector.add, Vector.multiply. cbn [x y]. f_equal; ring.
Qed.

(** X21.  One tick lets the speed grow by at most what gravity adds, and the ball
    travels exactly the new speed times the time step. *)
Theorem updateBallPhysics_speed (ball : Ball) (dt : R) :
  Vector.magnitude (velocity (updateBallPhysics ball dt))
  <= 98 / 100 * (Vector.magnitude (velocity ball) + 500 * Rabs dt)
  /\ Vector.magnitude
       (Vector.subtract (position (updateBallPhysics ball dt)) (position ball))
     = Rabs dt * Vector.magnitude (velocity (updateBallPhysics ball dt))
  /\ Vector.magnitude
       (Vector.subtract (position (updateBallPhysics ball dt)) (position ball))
     <= Rabs dt * (98 / 100 * (Vector.magnitude (velocity ball) + 500 * Rabs dt)).
Proof.
  destruct (updateBallPhysics_speed_bounds ball dt) as [B E].
  split; [exact B | split; [exact E |]].
  rewrite E. apply Rmult_le_compat_l; [apply Rabs_pos | exact B].
Qed.

(** * Further properties of [constrainBallInsideHexagon] *)

Lemma constrainBallInsideHexagon_center
    (br : R) (c : Vector2D) (r rot random1 random2 : R) :
  hasCollision (checkHexagonCollision c br c r rot) = true ->
  constrainBallInsideHexagon c br c r rot random1 random2
  = mkVector2D (x c + (random1 - 1 / 2)) (y c + (random2 - 1 / 2)).
Proof.
  intros Y. unfold constrainBallInsideHexagon. cbv zeta. rewrite Y. cbn [negb].
  assert (Z : Vector.magnitude (Vector.subtract c c) = 0).
  { apply magnitude_zero_iff. unfold Vector.subtract. cbn [x y]. split; ring. }
  destruct (Req_dec_T _ 0) as [_ | N]; [reflexivity | contradiction].
Qed.

(** X22.  [constrainBallInsideHexagon] has three outcomes and no other: without
    a reported collision the position is returned as it is; with one, a
    position other than the centre is replaced by the point at signed
    distance [hexagonRadius - ballRadius - 10] from the centre in the
    direction of the position, which is at distance
    [|hexagonRadius - ballRadius - 10|] from the centre wherever the position
    was; and the centre itself is moved by the two random draws less one
    half. *)
Theorem constrainBallInsideHexagon_outcomes
    (p : Vector2D) (br : R) (c : Vector2D) (r rot random1 random2 : R) :
  let q := constrainBallInsideHexagon p br c r rot random1 random2 in
  (hasCollision (checkHexagonCollision p br c r rot) = false /\ q = p)
  \/ (hasCollision (checkHexagonCollision p br c r rot) = true
      /\ p <> c
      /\ q = Vector.add c
               (Vector.multiply (Vector.normalize (Vector.subtract p c)) (r - br - 10))
      /\ Vector.magnitude (Vector.subtract q c) = Rabs (r - br - 10))
  \/ (hasCollision (checkHexagonCollision p br c r rot) = true
      /\ p = c
      /\ q = mkVector2D (x c + (random1 - 1 / 2)) (y c + (random2 - 1 / 2))).
Proof.
  cbv zeta.
  destruct (hasCollision (checkHexagonCollision p br c r rot)) eqn:Y.
  - right.
    destruct (Req_dec_T (Vector.magnitude (Vector.subtract c p)) 0) as [Z | NZ].
    + right. apply magnitude_zero_iff in Z. unfold Vector.subtract in Z.
      cbn [x y] in Z. destruct Z as [Zx Zy].
      assert (E : p = c).
      { destruct p, c. cbn [x y] in *. f_equal; lra. }
      subst p. repeat split.
      apply constrainBallInsideHexagon_center, Y.
    + left. split; [reflexivity |]. split.
      * intros E. apply NZ. subst p. apply magnitude_zero_iff.
        unfold Vector.subtract. cbn [x y]. split; ring.
      * apply constrainBallInsideHexagon_collision; assumption.
  - left. split; [reflexivity |].
    apply constrainBallInsideHexagon_no_collision, Y.
Qed.

Lemma constrainBallInsideHexagon_deep_inside
    (p : Vector2D) (br : R) (c : Vector2D) (r rot random1 random2 : R) :
  Vector.magnitude (Vector.subtract p c) + br < r * sqrt 3 / 2 ->
  constrainBallInsideHexagon p br c r rot random1 random2 = p.
Proof.
  intros H. apply constrainBallInsideHexagon_no_collision.
  apply checkHexagonCollision_deep_inside, H.
Qed.

(** * The state updates of the component *)

Lemma sqrt3_gt_1 : 1 < sqrt 3.
Proof. pose proof sqrt3_sqr. pose proof sqrt3_pos. nra. Qed.

(** X24.  [resetBall] puts the ball 50 above the canvas centre, at rest and with
    the configured radius, whatever the rotation and the random draws, as
    long as that point is farther than the ball radius inside the inscribed
    circle of the hexagon. *)
Theorem resetBall_position (config : GameConfig) (rot random1 random2 : R) :
  50 + ballRadius config < hexagonRadius config * sqrt 3 / 2 ->
  resetBall config rot random1 random2
  = mkBall (mkVector2D (canvasWidth config / 2) (canvasHeight config / 2 - 50))
           (mkVector2D 0 0) (ballRadius config).
Proof.
  intros H. unfold resetBall. cbv zeta.
  rewrite constrainBallInsideHexagon_deep_inside; [reflexivity |].
  rewrite (magnitude_eq _ 50);
    [exact H | lra | unfold Vector.subtract; cbn [x y]; ring].
Qed.

Lemma resetBall_position_witness :
  50 + ballRadius DEFAULT_CONFIG < hexagonRadius DEFAULT_CONFIG * sqrt 3 / 2
  /\ resetBall DEFAULT_CONFIG (PI / 7) (1 / 3) (2 / 3)
     = mkBall (mkVector2D (600 / 2) (600 / 2 - 50)) (mkVector2D 0 0) 8.
Proof.
  assert (H : 50 + ballRadius DEFAULT_CONFIG
              < hexagonRadius DEFAULT_CONFIG * sqrt 3 / 2).
  { cbn [ballRadius hexagonRadius DEFAULT_CONFIG]. pose proof sqrt3_gt_1. lra. }
  split; [exact H |].
  exact (resetBall_position DEFAULT_CONFIG (PI / 7) (1 / 3) (2 / 3) H).
Defined.

(** X25.  [handleConfigChange] keeps the velocity of the ball and installs the
    new radius; it leaves the ball where it is when its centre is farther
    than the new ball radius inside the inscribed circle of the new
    hexagon. *)
Theorem configChangeBall_keeps
    (updated : GameConfig) (rot : R) (prevBall : Ball) (random1 random2 : R) :
  velocity (configChangeBall updated rot prevBall random1 random2)
  = velocity prevBall
  /\ radius (configChangeBall updated rot prevBall random1 random2)
     = ballRadius updated
  /\ (Vector.magnitude (Vector.subtract (position prevBall) (canvasCenterOf updated))
      + ballRadius updated < hexagonRadius updated * sqrt 3 / 2 ->
      position (configChangeBall updated rot prevBall random1 random2)
      = position prevBall).
Proof.
  unfold configChangeBall. cbv zeta. cbn [velocity radius position].
  repeat split. intros H.
  apply constrainBallInsideHexagon_deep_inside. exact H.
Qed.

Lemma configChangeBall_keeps_witness :
  Vector.magnitude
    (Vector.subtract (position (createBall 300 250 8)) (canvasCenterOf DEFAULT_CONFIG))
  + ballRadius DEFAULT_CONFIG < hexagonRadius DEFAULT_CONFIG * sqrt 3 / 2
  /\ position (configChangeBall DEFAULT_CONFIG (PI / 7) (createBall 300 250 8)
                 (1 / 3) (2 / 3))
     = position (createBall 300 250 8).
Proof.
  assert (H : Vector.magnitude
                (Vector.subtract (position (createBall 300 250 8))
                                 (canvasCenterOf DEFAULT_CONFIG))
              + ballRadius DEFAULT_CONFIG
              < hexagonRadius DEFAULT_CONFIG * sqrt 3 / 2).
  { rewrite (magnitude_eq _ 50);
      [| lra
       | unfold Vector.subtract, canvasCenterOf, createBall, DEFAULT_CONFIG;
         cbn [x y position canvasWidth canvasHeight]; field].
    cbn [ballRadius hexagonRadius DEFAULT_CONFIG]. pose proof sqrt3_gt_1. lra. }
  split; [exact H |].
  exact (proj2 (proj2 (configChangeBall_keeps DEFAULT_CONFIG (PI / 7)
                         (createBall 300 250 8) (1 / 3) (2 / 3))) H).
Defined.

(** X26.  A click adds to the velocity a vector of length exactly 300 that points
    from the ball centre to the click, and nothing at all when the click is
    exactly on the ball centre; position and radius are kept, and the speed
    grows by at most 300. *)
Theorem clickBall_impulse (prevBall : Ball) (clickX clickY : R) :
  let click := mkVector2D clickX clickY in
  let impulse :=
    Vector.subtract (velocity (clickBall prevBall clickX clickY)) (velocity prevBall) in
  position (clickBall prevBall clickX clickY) = position prevBall
  /\ radius (clickBall prevBall clickX clickY) = radius prevBall
  /\ ((click = position prevBall /\ clickBall prevBall clickX clickY = prevBall)
      \/ (click <> position prevBall
          /\ Vector.magnitude impulse = 300
          /\ impulse
             = Vector.multiply
                 (Vector.subtract click (position prevBall))
                 (300 / Vector.magnitude (Vector.subtract click (position prevBall)))))
  /\ Vector.magnitude (velocity (clickBall prevBall clickX clickY))
     <= Vector.magnitude (velocity prevBall) + 300.
Proof.
  cbv zeta. unfold clickBall. cbv zeta. cbn [position velocity radius].
  set (direction := Vector.subtract (mkVector2D clickX clickY) (position prevBall)).
  assert (I : Vector.subtract
                (Vector.add (velocity prevBall)
                   (Vector.multiply (Vector.normalize direction) 300))
                (velocity prevBall)
              = Vector.multiply (Vector.normalize direction) 300).
  { unfold Vector.subtract, Vector.add, Vector.multiply. cbn [x y]. f_equal; ring. }
  rewrite I.
  split; [reflexivity |]. split; [reflexivity |].
  destruct (Req_dec_T (Vector.magnitude direction) 0) as [Z | NZ].
  - rewrite (normalize_zero direction Z).
    assert (E : mkVector2D clickX clickY = position prevBall).
    { apply magnitude_zero_iff in Z. unfold direction, Vector.subtract in Z.
      cbn [x y] in Z. destruct Z as [Zx Zy].
      destruct (position prevBall) as [px py]. cbn [x y] in *. f_equal; lra. }
    split.
    + left. split; [exact E |].
      destruct prevBall as [pos vel rad]. cbn [position velocity radius].
      f_equal. unfold Vector.add, Vector.multiply. cbn [x y].
      symmetry. apply vector_eq; ring.
    + unfold Vector.add, Vector.multiply. cbn [x y].
      replace (mkVector2D (x (velocity prevBall) + 0 * 300)
                          (y (velocity prevBall) + 0 * 300))
        with (velocity prevBall) by (apply vector_eq; ring).
      lra.
  - assert (M : Vector.magnitude (Vector.multiply (Vector.normalize direction) 300)
                = 300).
    { rewrite magnitude_multiply by lra.
      rewrite (magnitude_normalize direction NZ). ring. }
    split.
    + right. split; [| split; [exact M |]].
      * intros E. apply NZ. apply magnitude_zero_iff.
        unfold direction, Vector.subtract. rewrite <- E. cbn [x y]. split; ring.
      * unfold Vector.normalize.
        destruct (Req_dec_T (Vector.magnitude direction) 0); [contradiction |].
        unfold Vector.multiply. cbn [x y]. f_equal; field; exact NZ.
    + eapply Rle_trans; [apply magnitude_add_le |]. rewrite M. lra.
Qed.

(** X27.  Within one frame the ball travels at most [0.016] times its new speed:
    the time step never exceeds 16 ms, is 0 on the first frame, and is not
    negative when the clock does not run backwards. *)
Theorem gameLoop_frame_travel (ball : Ball) (lastTime currentTime : R) :
  lastTime <= currentTime ->
  let dt := frameDeltaTime lastTime currentTime in
  0 <= dt <= 16 / 1000
  /\ frameDeltaTime 0 currentTime = 0
  /\ Vector.magnitude
       (Vector.subtract (position (updateBallPhysics ball dt)) (position ball))
     <= 16 / 1000 * (98 / 100 * (Vector.magnitude (velocity ball) + 8)).
Proof.
  intros Hle dt.
  assert (D : 0 <= dt <= 16 / 1000).
  { unfold dt, frameDeltaTime. destruct (Req_dec_T lastTime 0); [lra |].
    split; [apply Rmin_glb; lra | apply Rmin_r]. }
  split; [exact D |]. split.
  - unfold frameDeltaTime. destruct (Req_dec_T 0 0); [reflexivity | contradiction].
  - destruct (updateBallPhysics_speed_bounds ball dt) as [B E].
    rewrite E, (Rabs_right dt) in * by lra.
    pose proof (magnitude_nonneg (velocity ball)) as V0.
    pose proof (magnitude_nonneg (velocity (updateBallPhysics ball dt))) as V1.
    apply Rmult_le_compat; lra.
Qed.

Lemma gameLoop_frame_travel_witness :
  1000 <= 1020
  /\ 0 <= frameDeltaTime 1000 1020 <= 16 / 1000.
Proof.
  assert (H : 1000 <= 1020) by lra.
  split; [exact H |].
  exact (proj1 (gameLoop_frame_travel exampleBall 1000 1020 H)).
Defined.

(** ** The ball update of the game loop *)

(** The update in terms of the nearest edge [k] of the integrated ball. *)
Lemma gameLoopBall_unfold (config : GameConfig) (rot : R) (prevBall : Ball) (dt : R) :
  let u := integratedBall config prevBall dt in
  let c := canvasCenterOf config in
  exists k, (k < 6)%nat
    /\ checkHexagonCollision (position u) (ballRadius config) c
         (hexagonRadius config) rot
       = mkCollisionResult
           (if Rle_dec (hexagonEdgeDistance (position u) c (hexagonRadius config) rot k)
                       (ballRadius config)
            then true else false)
           (Finite (hexagonEdgeDistance (position u) c (hexagonRadius config) rot k))
           (seg_start (hexagonEdge (x c) (y c) (hexagonRadius config) rot k))
           (seg_end (hexagonEdge (x c) (y c) (hexagonRadius config) rot k))
    /\ gameLoopBall config rot prevBall dt
       = if Rle_dec (hexagonEdgeDistance (position u) c (hexagonRadius config) rot k)
                    (ballRadius config)
         then handleWallCollision u
                (seg_start (hexagonEdge (x c) (y c) (hexagonRadius config) rot k))
                (seg_end (hexagonEdge (x c) (y c) (hexagonRadius config) rot k))
                (hexagonEdgeDistance (position u) c (hexagonRadius config) rot k)
         else u.
Proof.
  cbv zeta.
  destruct (checkHexagonCollision_uniform
              (position (integratedBall config prevBall dt))
              (canvasCenterOf config) (hexagonRadius config) rot) as [k [Hk E]].
  exists k. split; [exact Hk |]. split; [apply E |].
  unfold gameLoopBall. cbv zeta.
  change (mkBall (position (updateBallPhysics prevBall dt))
                 (velocity (updateBallPhysics prevBall dt)) (ballRadius config))
    with (integratedBall config prevBall dt).
  change (mkVector2D (canvasWidth config / 2) (canvasHeight config / 2))
    with (canvasCenterOf config).
  change (radius (integratedBall config prevBall dt)) with (ballRadius config).
  rewrite E. cbn [hasCollision distance wallStart wallEnd handleWallCollisionNum].
  destruct (Rle_dec _ (ballRadius config)); reflexivity.
Qed.

(** X28.  After every update of the game loop the ball has the configured radius
    and is no faster than the integrator left it; and while its centre is
    farther than the ball radius inside the inscribed circle of the hexagon,
    the update is the integrator's alone, whatever the rotation. *)
Theorem gameLoopBall_free_flight
    (config : GameConfig) (rot : R) (prevBall : Ball) (dt : R) :
  let u := integratedBall config prevBall dt in
  radius (gameLoopBall config rot prevBall dt) = ballRadius config
  /\ Vector.magnitude (velocity (gameLoopBall config rot prevBall dt))
     <= Vector.magnitude (velocity (updateBallPhysics prevBall dt))
  /\ (Vector.magnitude (Vector.subtract (position u) (canvasCenterOf config))
      + ballRadius config < hexagonRadius config * sqrt 3 / 2 ->
      gameLoopBall config rot prevBall dt = u).
Proof.
  cbv zeta.
  destruct (gameLoopBall_unfold config rot prevBall dt) as [k [Hk [_ E]]].
  cbv zeta in E. rewrite E. clear E.
  set (u := integratedBall config prevBall dt) in *.
  destruct (Rle_dec _ (ballRadius config)) as [L | N].
  - assert (Lu : hexagonEdgeDistance (position u) (canvasCenterOf config)
                   (hexagonRadius config) rot k <= radius u) by exact L.
    rewrite (handleWallCollision_collision u _ _ _ Lu). cbn [radius velocity].
    split; [reflexivity |]. split.
    + rewrite magnitude_multiply by (unfold PHYSICS_CONSTANTS.BOUNCE_DAMPING; lra).
      rewrite reflect_magnitude.
      change (velocity u) with (velocity (updateBallPhysics prevBall dt)).
      pose proof (magnitude_nonneg (velocity (updateBallPhysics prevBall dt))).
      unfold PHYSICS_CONSTANTS.BOUNCE_DAMPING. lra.
    + intros H. exfalso.
      pose proof (hexagonEdgeDistance_inside (position u) (canvasCenterOf config)
                    (hexagonRadius config) rot k Hk).
      lra.
  - split; [reflexivity |]. split; [apply Rle_refl | reflexivity].
Qed.

Lemma gameLoopBall_free_flight_witness :
  Vector.magnitude
    (Vector.subtract
       (position (integratedBall DEFAULT_CONFIG (createBall 300 250 8) 0))
       (canvasCenterOf DEFAULT_CONFIG))
  + ballRadius DEFAULT_CONFIG < hexagonRadius DEFAULT_CONFIG * sqrt 3 / 2
  /\ gameLoopBall DEFAULT_CONFIG (PI / 7) (createBall 300 250 8) 0
     = integratedBall DEFAULT_CONFIG (createBall 300 250 8) 0.
Proof.
  assert (P : position (integratedBall DEFAULT_CONFIG (createBall 300 250 8) 0)
              = mkVector2D 300 250).
  { unfold integratedBall. cbv zeta. cbn [position].
    pose proof (updateBallPhysics_unfold (createBall 300 250 8) 0) as E.
    cbv zeta in E. rewrite E. cbn [position].
    unfold Vector.add, Vector.multiply, createBall. cbn [x y position].
    f_equal; ring. }
  assert (H : Vector.magnitude
                (Vector.subtract
                   (position (integratedBall DEFAULT_CONFIG (createBall 300 250 8) 0))
                   (canvasCenterOf DEFAULT_CONFIG))
              + ballRadius DEFAULT_CONFIG
              < hexagonRadius DEFAULT_CONFIG * sqrt 3 / 2).
  { rewrite P. rewrite (magnitude_eq _ 50);
      [| lra
       | unfold Vector.subtract, canvasCenterOf, DEFAULT_CONFIG;
         cbn [x y canvasWidth canvasHeight]; field].
    cbn [ballRadius hexagonRadius DEFAULT_CONFIG]. pose proof sqrt3_gt_1. lra. }
  split; [exact H |].
  exact (proj2 (proj2 (gameLoopBall_free_flight DEFAULT_CONFIG (PI / 7)
                         (createBall 300 250 8) 0)) H).
Defined.

(** X29.  When the game loop resolves a collision with a hexagon of non-zero
    radius and the projection of the ball centre falls inside the reported
    wall, the ball ends the update at least its radius away from that
    wall. *)
Theorem gameLoopBall_clears_wall
    (config : GameConfig) (rot : R) (prevBall : Ball) (dt : R) :
  let u := integratedBall config prevBall dt in
  let res :=
    checkHexagonCollision (position u) (ballRadius config) (canvasCenterOf config)
      (hexagonRadius config) rot in
  hexagonRadius config <> 0 ->
  hasCollision res = true ->
  0 <= segmentDot (position u) (wallStart res) (wallEnd res)
    <= segmentLenSq (wallStart res) (wallEnd res) ->
  ballRadius config
  <= pointToLineSegmentDistance
       (position (gameLoopBall config rot prevBall dt))
       (wallStart res) (wallEnd res).
Proof.
  cbv zeta. intros Hr.
  destruct (gameLoopBall_unfold config rot prevBall dt) as [k [Hk [C E]]].
  cbv zeta in C, E. rewrite C, E. clear C E.
  cbn [hasCollision wallStart wallEnd].
  set (u := integratedBall config prevBall dt) in *.
  destruct (Rle_dec _ (ballRadius config)) as [L | N]; [| discriminate].
  intros _ Hin.
  apply (handleWallCollision_clears_measured_wall u).
  - apply hexagonEdge_nondegenerate; assumption.
  - exact Hin.
  - exact L.
Qed.

Lemma distance_on_segment (a b : Vector2D) (t : R) :
  0 <= t <= 1 -> pointToLineSegmentDistance (pointAt a b t) a b = 0.
Proof.
  intros Ht. apply Rle_antisym; [| apply distance_nonneg].
  eapply Rle_trans; [apply (distance_minimal _ a b t Ht) |].
  apply Req_le, magnitude_zero_iff.
  unfold Vector.subtract. cbn [x y]. split; ring.
Qed.

Lemma segmentDot_pointAt (a b : Vector2D) (t : R) :
  segmentDot (pointAt a b t) a b = t * segmentLenSq a b.
Proof.
  unfold segmentDot, segmentLenSq, pointAt, Vector.dot, Vector.subtract.
  cbn [x y]. ring.
Qed.

(** A ball centre on the first edge makes the detector report that edge. *)
Lemma checkHexagonCollision_on_first_edge
    (p : Vector2D) (br : R) (c : Vector2D) (hr rot : R) :
  hexagonEdgeDistance p c hr rot 0 = 0 ->
  checkHexagonCollision p br c hr rot
  = mkCollisionResult (if Rle_dec 0 br then true else false) (Finite 0)
      (hexagonVertex (x c) (y c) hr rot 0) (hexagonVertex (x c) (y c) hr rot 1).
Proof.
  intros Z.
  destruct (checkHexagonCollision_scan p br c hr rot) as [k [Hk [_ [Hfirst E]]]].
  destruct k as [| k].
  - rewrite E, Z. reflexivity.
  - exfalso. specialize (Hfirst 0%nat ltac:(lia)). rewrite Z in Hfirst.
    pose proof (distance_nonneg p
                  (seg_start (hexagonEdge (x c) (y c) hr rot (S k)))
                  (seg_end (hexagonEdge (x c) (y c) hr rot (S k)))) as N.
    fold (hexagonEdgeDistance p c hr rot (S k)) in N. lra.
Qed.

Lemma wallMiddleBall_integrated :
  integratedBall DEFAULT_CONFIG wallMiddleBall 0 = wallMiddleBall.
Proof.
  unfold integratedBall. cbv zeta.
  pose proof (updateBallPhysics_unfold wallMiddleBall 0) as E. cbv zeta in E.
  rewrite E. clear E. cbn [position velocity].
  assert (M : Vector.magnitude
                (mkVector2D (x (velocity wallMiddleBall) * (98 / 100))
                   ((y (velocity wallMiddleBall) + 500 * 0) * (98 / 100))) = 0).
  { apply magnitude_zero_iff. cbn [x y velocity wallMiddleBall]. split; ring. }
  rewrite M. destruct (Rlt_dec 0 (1 / 10)) as [_ | N]; [| exfalso; lra].
  cbn [ballRadius DEFAULT_CONFIG].
  transitivity (mkBall (position wallMiddleBall) (mkVector2D 0 0) 8);
    [| reflexivity].
  f_equal. unfold Vector.add, Vector.multiply. cbn [x y].
  symmetry. apply vector_eq; ring.
Qed.

Lemma wallMiddleBall_detected :
  checkHexagonCollision (position wallMiddleBall) 8 (canvasCenterOf DEFAULT_CONFIG)
    200 0
  = mkCollisionResult true (Finite 0)
      (hexagonVertex 300 300 200 0 0) (hexagonVertex 300 300 200 0 1).
Proof.
  assert (C : canvasCenterOf DEFAULT_CONFIG = mkVector2D 300 300).
  { unfold canvasCenterOf, DEFAULT_CONFIG. cbn [canvasWidth canvasHeight].
    f_equal; field. }
  rewrite C. rewrite checkHexagonCollision_on_first_edge.
  - cbn [x y]. destruct (Rle_dec 0 8); [reflexivity | exfalso; lra].
  - unfold hexagonEdgeDistance, hexagonEdge. cbn [seg_start seg_end x y].
    apply (distance_on_segment _ _ (1 / 2)). lra.
Qed.

Lemma gameLoopBall_clears_wall_witness :
  hexagonRadius DEFAULT_CONFIG <> 0
  /\ hasCollision
       (checkHexagonCollision
          (position (integratedBall DEFAULT_CONFIG wallMiddleBall 0))
          (ballRadius DEFAULT_CONFIG) (canvasCenterOf DEFAULT_CONFIG)
          (hexagonRadius DEFAULT_CONFIG) 0) = true
  /\ ballRadius DEFAULT_CONFIG
     <= pointToLineSegmentDistance
          (position (gameLoopBall DEFAULT_CONFIG 0 wallMiddleBall 0))
          (wallStart
             (checkHexagonCollision
                (position (integratedBall DEFAULT_CONFIG wallMiddleBall 0))
                (ballRadius DEFAULT_CONFIG) (canvasCenterOf DEFAULT_CONFIG)
                (hexagonRadius DEFAULT_CONFIG) 0))
          (wallEnd
             (checkHexagonCollision
                (position (integratedBall DEFAULT_CONFIG wallMiddleBall 0))
                (ballRadius DEFAULT_CONFIG) (canvasCenterOf DEFAULT_CONFIG)
                (hexagonRadius DEFAULT_CONFIG) 0)).
Proof.
  assert (H1 : hexagonRadius DEFAULT_CONFIG <> 0)
    by (cbn [hexagonRadius DEFAULT_CONFIG]; lra).
  assert (D : checkHexagonCollision
                (position (integratedBall DEFAULT_CONFIG wallMiddleBall 0))
                (ballRadius DEFAULT_CONFIG) (canvasCenterOf DEFAULT_CONFIG)
                (hexagonRadius DEFAULT_CONFIG) 0
              = mkCollisionResult true (Finite 0)
                  (hexagonVertex 300 300 200 0 0) (hexagonVertex 300 300 200 0 1)).
  { rewrite wallMiddleBall_integrated. exact wallMiddleBall_detected. }
  assert (H2 : hasCollision
                 (checkHexagonCollision
                    (position (integratedBall DEFAULT_CONFIG wallMiddleBall 0))
                    (ballRadius DEFAULT_CONFIG) (canvasCenterOf DEFAULT_CONFIG)
                    (hexagonRadius DEFAULT_CONFIG) 0) = true)
    by (rewrite D; reflexivity).
  assert (H3 : 0 <= segmentDot
                      (position (integratedBall DEFAULT_CONFIG wallMiddleBall 0))
                      (wallStart
                         (checkHexagonCollision
                            (position (integratedBall DEFAULT_CONFIG wallMiddleBall 0))
                            (ballRadius DEFAULT_CONFIG) (canvasCenterOf DEFAULT_CONFIG)
                            (hexagonRadius DEFAULT_CONFIG) 0))
                      (wallEnd
                         (checkHexagonCollision
                            (position (integratedBall DEFAULT_CONFIG wallMiddleBall 0))
                            (ballRadius DEFAULT_CONFIG) (canvasCenterOf DEFAULT_CONFIG)
                            (hexagonRadius DEFAULT_CONFIG) 0))
               <= segmentLenSq
                    (wallStart
                       (checkHexagonCollision
                          (position (integratedBall DEFAULT_CONFIG wallMiddleBall 0))
                          (ballRadius DEFAULT_CONFIG) (canvasCenterOf DEFAULT_CONFIG)
                          (hexagonRadius DEFAULT_CONFIG) 0))
                    (wallEnd
                       (checkHexagonCollision
                          (position (integratedBall DEFAULT_CONFIG wallMiddleBall 0))
                          (ballRadius DEFAULT_CONFIG) (canvasCenterOf DEFAULT_CONFIG)
                          (hexagonRadius DEFAULT_CONFIG) 0))).
  { rewrite D. cbn [wallStart wallEnd]. rewrite wallMiddleBall_integrated.
    cbn [position wallMiddleBall]. rewrite segmentDot_pointAt.
    pose proof (segmentLenSq_nonneg (hexagonVertex 300 300 200 0 0)
                  (hexagonVertex 300 300 200 0 1)).
    lra. }
  split; [exact H1 | split; [exact H2 |]].
  exact (gameLoopBall_clears_wall DEFAULT_CONFIG 0 wallMiddleBall 0 H1 H2 H3).
Defined.

Lemma handleWallCollision_point_wall_witness :
  4 <= radius exampleBall
  /\ position (handleWallCollision exampleBall exampleWallStart exampleWallStart 4)
     = position exampleBall.
Proof.
  assert (H : 4 <= radius exampleBall) by (cbn [radius exampleBall]; lra).
  split; [exact H |].
  exact (proj1 (handleWallCollision_point_wall exampleBall exampleWallStart 4 H)).
Defined.

(** * The constrained position may still collide *)

Lemma normalize_rescale (v : Vector2D) :
  Vector.magnitude v <> 0 ->
  Vector.multiply (Vector.normalize v) (Vector.magnitude v) = v.
Proof.
  intros NZ. unfold Vector.normalize.
  destruct (Req_dec_T (Vector.magnitude v) 0); [contradiction |].
  unfold Vector.multiply. cbn [x y]. symmetry.
  apply vector_eq; field; exact NZ.
Qed.

(** The middle of an edge is at distance [r * sqrt 3 / 2] from the
    centre. *)
Lemma hexagonEdge_middle (cx cy r rot : R) (i : nat) :
  (i < 6)%nat -> 0 <= r ->
  Vector.magnitude
    (Vector.subtract
       (pointAt (seg_start (hexagonEdge cx cy r rot i))
                (seg_end (hexagonEdge cx cy r rot i)) (1 / 2))
       (mkVector2D cx cy))
  = r * sqrt 3 / 2.
Proof.
  intros Hi Hr. destruct (hexagonEdge_ends cx cy r rot i Hi) as [-> ->].
  pose proof sqrt3_sqr as Q. pose proof sqrt3_pos as Qp.
  apply magnitude_eq; [nra |].
  unfold Vector.subtract, pointAt, polarPoint. cbn [x y].
  rewrite cos_shift60, sin_shift60.
  pose proof (sin2_cos2 (hexagonAngle i rot)) as SC. unfold Rsqr in SC.
  set (co := cos (hexagonAngle i rot)) in *.
  set (si := sin (hexagonAngle i rot)) in *.
  set (q := sqrt 3) in *.
  replace ((cx + r * co + 1 / 2 * (cx + r * (co / 2 - si * q / 2) - (cx + r * co)) - cx)
           * (cx + r * co + 1 / 2 * (cx + r * (co / 2 - si * q / 2) - (cx + r * co)) - cx)
           + (cy + r * si + 1 / 2 * (cy + r * (si / 2 + co * q / 2) - (cy + r * si)) - cy)
             * (cy + r * si + 1 / 2 * (cy + r * (si / 2 + co * q / 2) - (cy + r * si)) - cy))
    with (r * r * ((si * si + co * co) * (9 / 16 + q * q / 16))) by field.
  rewrite SC.
  replace (r * q / 2 * (r * q / 2)) with (r * r * (q * q) / 4) by field.
  rewrite Q. field.
Qed.

(** X23.  [constrainBallInsideHexagon] does not establish what it tests: a ball
    centred on the middle of a wall collides, is moved to distance
    [|r - ballRadius - 10|] from the centre along the same line, and
    there it still collides whenever
    [10 <= r * (1 - sqrt 3 / 2) <= 2 * ballRadius + 10]; and it is then
    farther from the centre than the wall itself as soon as
    [r * sqrt 3 / 2 < r - ballRadius - 10]. *)
Theorem constrainBallInsideHexagon_still_collides
    (br : R) (c : Vector2D) (r rot random1 random2 : R) :
  0 < r -> 0 <= br ->
  10 <= r * (1 - sqrt 3 / 2) <= 2 * br + 10 ->
  let p := pointAt (hexagonVertex (x c) (y c) r rot 0)
                   (hexagonVertex (x c) (y c) r rot 1) (1 / 2) in
  let q := constrainBallInsideHexagon p br c r rot random1 random2 in
  hasCollision (checkHexagonCollision p br c r rot) = true
  /\ Vector.magnitude (Vector.subtract q c) = Rabs (r - br - 10)
  /\ hasCollision (checkHexagonCollision q br c r rot) = true
  /\ (r * sqrt 3 / 2 < r - br - 10 ->
      Vector.magnitude (Vector.subtract p c) < Vector.magnitude (Vector.subtract q c)).
Proof.
  intros Hr Hbr Hband p q.
  pose proof sqrt3_pos as Qp.
  assert (Mid : Vector.magnitude (Vector.subtract p c) = r * sqrt 3 / 2).
  { destruct c as [cx cy]. cbn [x y] in *.
    apply (hexagonEdge_middle cx cy r rot 0); [lia | lra]. }
  assert (Y : hasCollision (checkHexagonCollision p br c r rot) = true).
  { apply (checkHexagonCollision_near_edge _ _ _ _ _ 0%nat); [lia |].
    unfold hexagonEdgeDistance, hexagonEdge. cbn [seg_start seg_end].
    unfold p. change ((0 + 1) mod 6)%nat with 1%nat.
    rewrite distance_on_segment by lra. exact Hbr. }
  assert (NZ : Vector.magnitude (Vector.subtract c p) <> 0).
  { rewrite magnitude_subtract_sym, Mid. nra. }
  destruct (constrainBallInsideHexagon_collision p br c r rot random1 random2 Y NZ)
    as [E M].
  fold q in E, M.
  split; [exact Y |]. split; [exact M |]. split.
  - apply (checkHexagonCollision_near_edge _ _ _ _ _ 0%nat); [lia |].
    unfold hexagonEdgeDistance, hexagonEdge. cbn [seg_start seg_end].
    change ((0 + 1) mod 6)%nat with 1%nat.
    eapply Rle_trans; [apply (distance_minimal q _ _ (1 / 2)); lra |].
    fold p.
    set (u := Vector.normalize (Vector.subtract p c)) in *.
    assert (Pu : Vector.subtract p c = Vector.multiply u (r * sqrt 3 / 2)).
    { rewrite <- Mid. symmetry. apply normalize_rescale.
      rewrite Mid. nra. }
    replace (Vector.subtract q p)
      with (Vector.multiply u (r - br - 10 - r * sqrt 3 / 2)).
    + rewrite magnitude_multiply_abs.
      assert (U1 : Vector.magnitude u = 1).
      { apply magnitude_normalize. rewrite Mid. nra. }
      rewrite U1, Rmult_1_r. apply Rabs_le. lra.
    + rewrite E.
      assert (Px : x p = x c + x u * (r * sqrt 3 / 2)).
      { apply (f_equal x) in Pu. unfold Vector.subtract, Vector.multiply in Pu.
        cbn [x y] in Pu. lra. }
      assert (Py : y p = y c + y u * (r * sqrt 3 / 2)).
      { apply (f_equal y) in Pu. unfold Vector.subtract, Vector.multiply in Pu.
        cbn [x y] in Pu. lra. }
      unfold Vector.subtract, Vector.add, Vector.multiply. cbn [x y].
      rewrite Px, Py. f_equal; ring.
  - intros Out. pose proof (Rmult_lt_0_compat _ _ Hr Qp).
    rewrite Mid, M, Rabs_right by lra. exact Out.
Qed.

Lemma constrainBallInsideHexagon_still_collides_witness :
  0 < 200 /\ 0 <= 10
  /\ 10 <= 200 * (1 - sqrt 3 / 2) <= 2 * 10 + 10
  /\ hasCollision
       (checkHexagonCollision
          (constrainBallInsideHexagon
             (pointAt (hexagonVertex 300 300 200 0 0) (hexagonVertex 300 300 200 0 1)
                      (1 / 2))
             10 canvasCenter 200 0 (1 / 3) (2 / 3))
          10 canvasCenter 200 0) = true.
Proof.
  assert (H1 : 0 < 200) by lra.
  assert (H2 : 0 <= 10) by lra.
  assert (H3 : 10 <= 200 * (1 - sqrt 3 / 2) <= 2 * 10 + 10).
  { pose proof sqrt3_sqr. pose proof sqrt3_pos. split; nra. }
  split; [exact H1 | split; [exact H2 | split; [exact H3 |]]].
  exact (proj1 (proj2 (proj2
    (constrainBallInsideHexagon_still_collides 10 canvasCenter 200 0 (1 / 3) (2 / 3)
       H1 H2 H3)))).
Defined.
